(** * genkit-programmez: the cycling RAG context pipeline

    A shallow embedding of the feed pipeline of [main.go]
    ([fetchRSSItems], [fetchFirstWorkingFeed], [filterTransferItems],
    [fetchCyclingContext]) and the properties its specification states.

    Go strings are byte strings: they are modelled as [string] (one [ascii]
    per byte, UTF-8 literals kept byte for byte).  The network, the XML
    decoder and the Unicode case tables belong to the Go standard library,
    not to the repository: they are the fields of the class [Platform]. *)

From Stdlib Require Import List String Ascii ZArith Bool Lia Arith.
From Stdlib Require Import DecimalString.
Import ListNotations.

Local Open Scope string_scope.
Local Open Scope list_scope.

(** ** Data model *)

(** [type rssItem struct { Title; Link; PubDate string }] *)
Record rssItem : Type := mkItem {
  Title : string;
  Link : string;
  PubDate : string
}.

(** [type rssFeed struct { Channel struct { Items []rssItem } }] *)
Record rssChannel : Type := mkChannel { Items : list rssItem }.
Record rssFeed : Type := mkFeed { Channel : rssChannel }.

(** One entry of [cyclingFeeds]: [struct { name string; urls []string }]. *)
Record feedSource : Type := mkSource {
  name : string;
  urls : list string
}.

(** ** Configuration constants *)

Definition maxItemsPerFeed : Z := 5.

Definition cyclingFeeds : list feedSource :=
  [ mkSource "L'Équipe (Cyclisme)"
      ["https://dwh.lequipe.fr/api/edito/rss?path=/Cyclisme/"];
    mkSource "DirectVelo"
      ["https://feeds.feedburner.com/ActualitsDirectvelo"] ].

Definition transferKeywords : list string :=
  [ "transfert"; "transfer"; "mutation"; "mercato"; "signe"; "signature";
    "recrut"; "rejoint"; "quitte"; "engage"; "arrive"; "contrat"; "renforce" ].

(** The placeholder date of a snippet and the fallback snippet. *)
Definition unknownDate : string := "date inconnue".

Definition fallbackSnippet : string :=
  "- Aucun flux cyclisme accessible pour le moment. Réponds de façon générale et prudente sur les transferts récents.".

Definition fallbackWarning : string :=
  "warning: aucun flux cyclisme accessible, usage d'un contexte de secours.".

(** The [User-Agent] header and the client timeout (in seconds) of
    [fetchRSSItems]. *)
Definition userAgent : string :=
  "genkit-cycling-rag/1.0 (+https://github.com/thepriben/genkit-programmez)".

Definition clientTimeout : Z := 10.

(** The request [fetchRSSItems] builds: method, URL and the header it sets;
    there is no body. *)
Record httpRequest : Type := mkRequest {
  reqMethod : string;
  reqURL : string;
  reqUserAgent : string
}.

(** ** Byte-string helpers ([strings] and [fmt]) *)

(** [strings.Contains(s, substr)]: [substr] occurs in [s] at some offset. *)
Fixpoint Contains (s substr : string) : bool :=
  if String.prefix substr s then true
  else match s with
       | EmptyString => false
       | String _ s' => Contains s' substr
       end.

(** The ASCII fast path of [strings.ToLower]. *)
Definition isASCIIByte (c : ascii) : bool := (nat_of_ascii c <? 128)%nat.

Definition isUpperByte (c : ascii) : bool :=
  (65 <=? nat_of_ascii c)%nat && (nat_of_ascii c <=? 90)%nat.

Definition lowerByte (c : ascii) : ascii :=
  if isUpperByte c then ascii_of_nat (nat_of_ascii c + 32) else c.

Fixpoint isASCII (s : string) : bool :=
  match s with
  | EmptyString => true
  | String c s' => isASCIIByte c && isASCII s'
  end.

Fixpoint hasUpper (s : string) : bool :=
  match s with
  | EmptyString => false
  | String c s' => isUpperByte c || hasUpper s'
  end.

Fixpoint mapBytes (f : ascii -> ascii) (s : string) : string :=
  match s with
  | EmptyString => EmptyString
  | String c s' => String (f c) (mapBytes f s')
  end.

(** [%d] of an [int]. *)
Definition fmt_d (n : Z) : string := NilZero.string_of_int (Z.to_int n).

(** [%v] of a [[]string]: the elements between brackets, separated by one
    space. *)
Definition fmt_v (l : list string) : string :=
  "[" ++ String.concat " " l ++ "]".

(** ** Errors

    One constructor per place where the pipeline creates or receives an
    [error]; [Error] is its message. *)
Inductive error : Type :=
| ErrNewRequest (msg : string)          (* http.NewRequestWithContext *)
| ErrDo (msg : string)                  (* client.Do: transport failure *)
| ErrStatus (code : Z)                  (* fmt.Errorf("status %d", code) *)
| ErrDecode (msg : string)              (* xml Decode: malformed body *)
| ErrNoWorkingURL (attempted : list string).
                                        (* fmt.Errorf("no working URL among %v", urls) *)

Definition Error (e : error) : string :=
  match e with
  | ErrNewRequest msg => msg
  | ErrDo msg => msg
  | ErrStatus code => "status " ++ fmt_d code
  | ErrDecode msg => msg
  | ErrNoWorkingURL attempted => "no working URL among " ++ fmt_v attempted
  end.

(** ** The platform: what the Go standard library and the network provide *)

Class Platform : Type := {
  (** The state of everything outside the process (servers, clock, the
      cancellation context). *)
  World : Type;
  (** [http.NewRequestWithContext]: the error message for a URL that cannot
      be made into a request. *)
  new_request : string -> option string;
  (** The body of a response ([resp.Body], a stream). *)
  Body : Type;
  (** [(&http.Client{Timeout: t}).Do(req)]: a transport error, or the status
      code and the body of the response. *)
  client_do : Z -> httpRequest -> World -> (string + Z * Body) * World;
  (** [xml.NewDecoder(resp.Body).Decode(&feed)], which reads the body: a
      decoding error or the parsed document. *)
  xml_decode : Body -> World -> (string + rssFeed) * World;
  (** [resp.Body.Close()]. *)
  body_close : Body -> World -> World;
  (** [strings.Map(unicode.ToLower, s)], the path of [strings.ToLower] for a
      string with a byte outside ASCII. *)
  unicode_lower : string -> string
}.

(** ** Observable events and the monad of the pipeline *)

Inductive event : Type :=
| EvFetch (url : string)     (* fetchRSSItems was entered for url *)
| EvLog (line : string).     (* log.Printf *)

Inductive outcome (A : Type) : Type :=
| Ret (a : A)
| Panic (msg : string).
Arguments Ret {A} a.
Arguments Panic {A} msg.

(** A computation reads and changes the world, emits events, and either
    returns or panics. *)
Definition M `{Platform} (A : Type) : Type :=
  World -> outcome A * World * list event.

Definition ret `{Platform} {A : Type} (a : A) : M A :=
  fun w => (Ret a, w, []).

Definition bind `{Platform} {A B : Type} (m : M A) (f : A -> M B) : M B :=
  fun w =>
    match m w with
    | (Ret a, w1, t1) =>
        match f a w1 with
        | (r, w2, t2) => (r, w2, t1 ++ t2)
        end
    | (Panic msg, w1, t1) => (Panic msg, w1, t1)
    end.

Definition panic `{Platform} {A : Type} (msg : string) : M A :=
  fun w => (Panic msg, w, []).

Definition emit `{Platform} (e : event) : M unit :=
  fun w => (Ret tt, w, [e]).

Definition logPrintf `{Platform} (line : string) : M unit := emit (EvLog line).

Definition liftWorld `{Platform} {A : Type} (f : World -> A * World) : M A :=
  fun w => let (a, w') := f w in (Ret a, w', []).

(** [defer cleanup] around the rest of a function: the cleanup runs when the
    function returns and when it panics. *)
Definition defer `{Platform} {A : Type} (cleanup : World -> World) (m : M A)
  : M A :=
  fun w => match m w with (r, w1, t) => (r, cleanup w1, t) end.

Notation "x <- m ;; k" := (bind m (fun x => k))
  (at level 61, m at next level, right associativity).
Notation "' pat <- m ;; k" := (bind m (fun x => match x with pat => k end))
  (at level 61, pat pattern, m at next level, right associativity).
Notation "m ;;; k" := (bind m (fun _ => k))
  (at level 61, right associativity).

(** ** The pipeline *)

Section Pipeline.
Context `{P : Platform}.

(** [strings.ToLower]. *)
Definition ToLower (s : string) : string :=
  if isASCII s then
    if hasUpper s then mapBytes lowerByte s else s
  else unicode_lower s.

(** [fetchRSSItems(ctx, feedURL, limit)]. *)
Definition fetchRSSItems (feedURL : string) (limit : Z)
  : M (list rssItem * option error) :=
  emit (EvFetch feedURL) ;;;
  match new_request feedURL with
  | Some msg => ret ([], Some (ErrNewRequest msg))
  | None =>
      let req := mkRequest "GET" feedURL userAgent in
      resp <- liftWorld (client_do clientTimeout req) ;;
      match resp with
      | inl msg => ret ([], Some (ErrDo msg))
      | inr (status, body) =>
          defer (body_close body)
            (if (status <? 200)%Z || (status >=? 300)%Z then
               ret ([], Some (ErrStatus status))
             else
               decoded <- liftWorld (xml_decode body) ;;
               match decoded with
               | inl msg => ret ([], Some (ErrDecode msg))
               | inr feed =>
                   let items := Items (Channel feed) in
                   if (Z.of_nat (List.length items) >? limit)%Z then
                     (* items[:limit] *)
                     if (limit <? 0)%Z then panic "slice bounds out of range"
                     else ret (firstn (Z.to_nat limit) items, None)
                   else ret (items, None)
               end)
      end
  end.

(** The [for _, feedURL := range urls] loop of [fetchFirstWorkingFeed];
    [all] is the whole list, kept for the final error. *)
Fixpoint fetchFirstWorkingFeed_range (all rest : list string) (limit : Z)
  : M (list rssItem * string * option error) :=
  match rest with
  | [] => ret ([], "", Some (ErrNoWorkingURL all))
  | feedURL :: rest' =>
      '(items, err) <- fetchRSSItems feedURL limit ;;
      match err with
      | None =>
          if (0 <? List.length items)%nat then ret (items, feedURL, None)
          else fetchFirstWorkingFeed_range all rest' limit
      | Some e =>
          logPrintf ("feed attempt failed (" ++ feedURL ++ "): " ++ Error e) ;;;
          fetchFirstWorkingFeed_range all rest' limit
      end
  end.

(** [fetchFirstWorkingFeed(ctx, urls, limit)]. *)
Definition fetchFirstWorkingFeed (urls : list string) (limit : Z)
  : M (list rssItem * string * option error) :=
  fetchFirstWorkingFeed_range urls urls limit.

(** The inner keyword loop of [filterTransferItems], with its [break]. *)
Definition matchesKeyword (it : rssItem) : bool :=
  let titleLower := ToLower (Title it) in
  existsb (fun kw => Contains titleLower kw) transferKeywords.

(** [filterTransferItems(items)]. *)
Definition filterTransferItems (items : list rssItem) : list rssItem :=
  let filtered := filter matchesKeyword items in
  if (List.length filtered =? 0)%nat then items else filtered.

(** [fmt.Sprintf("- %s (%s)", it.Title, date)] with the date defaulted. *)
Definition snippetLine (it : rssItem) : string :=
  let date := if (PubDate it =? "")%string then unknownDate else PubDate it in
  "- " ++ Title it ++ " (" ++ date ++ ")".

(** The [for _, it := range filterTransferItems(items)] loop of
    [fetchCyclingContext]. *)
Fixpoint fetchCyclingContext_items (its : list rssItem)
    (snippets sources : list string) : list string * list string :=
  match its with
  | [] => (snippets, sources)
  | it :: its' =>
      let snippets := snippets ++ [snippetLine it] in
      let sources :=
        if negb (Link it =? "")%string then sources ++ [Link it] else sources in
      fetchCyclingContext_items its' snippets sources
  end.

(** The [for _, feed := range cyclingFeeds] loop of [fetchCyclingContext]. *)
Fixpoint fetchCyclingContext_range (feeds : list feedSource)
    (snippets sources : list string) : M (list string * list string) :=
  match feeds with
  | [] => ret (snippets, sources)
  | feed :: feeds' =>
      '(items, srcURL, err) <- fetchFirstWorkingFeed (urls feed) maxItemsPerFeed ;;
      match err with
      | Some e =>
          logPrintf ("skip feed " ++ name feed ++ ": " ++ Error e) ;;;
          fetchCyclingContext_range feeds' snippets sources
      | None =>
          let '(snippets, sources) :=
            fetchCyclingContext_items (filterTransferItems items) snippets sources in
          let sources :=
            if negb (srcURL =? "")%string then sources ++ [srcURL] else sources in
          fetchCyclingContext_range feeds' snippets sources
      end
  end.

(** [fetchCyclingContext(ctx)]. *)
Definition fetchCyclingContext : M (list string * list string * option error) :=
  '(snippets, sources) <- fetchCyclingContext_range cyclingFeeds [] [] ;;
  if (List.length snippets =? 0)%nat then
    logPrintf fallbackWarning ;;;
    ret (snippets ++ [fallbackSnippet], sources, None)
  else ret (snippets, sources, None).

End Pipeline.

(** ** Vocabulary of the specification *)

Section Vocabulary.
Context `{P : Platform}.

(** The URLs for which [fetchRSSItems] was entered, in order. *)
Fixpoint fetched (t : list event) : list string :=
  match t with
  | [] => []
  | EvFetch u :: t' => u :: fetched t'
  | EvLog _ :: t' => fetched t'
  end.

(** A candidate "fails or returns an empty item list". *)
Definition failsOrEmpty (r : outcome (list rssItem * option error)) : bool :=
  match r with
  | Ret (_, Some _) => true
  | Ret (items, None) => (List.length items =? 0)%nat
  | Panic _ => false
  end.

(** Every candidate of [urls], fetched one after the other from the world
    [w], fails or returns an empty list; the result is the world left by the
    last attempt. *)
Fixpoint exhausts (urls : list string) (limit : Z) (w : World) : option World :=
  match urls with
  | [] => Some w
  | u :: urls' =>
      match fetchRSSItems u limit w with
      | (r, w', _) => if failsOrEmpty r then exhausts urls' limit w' else None
      end
  end.

(** What the Feed Resolver answers for one source. *)
Definition resolution : Type := (list rssItem * string * option error)%type.

(** The resolver outcomes of the sources, in declaration order, each source
    resolved in the world left by the one before. *)
Fixpoint resolveAll (feeds : list feedSource) (w : World) : list resolution :=
  match feeds with
  | [] => []
  | feed :: feeds' =>
      match fetchFirstWorkingFeed (urls feed) maxItemsPerFeed w with
      | (Ret r, w', _) => r :: resolveAll feeds' w'
      | (Panic _, _, _) => []
      end
  end.

Definition succeeded (r : resolution) : bool :=
  match r with
  | (_, _, None) => true
  | (_, _, Some _) => false
  end.

(** The snippet lines of one successful source: one line per retained item,
    in item order. *)
Definition snippetsOf (r : resolution) : list string :=
  let '(items, _, _) := r in map snippetLine (filterTransferItems items).

(** The test [it.Link != ""] of the assembler. *)
Definition nonEmpty (l : string) : bool := negb (l =? "")%string.

(** The source URLs of one successful source: the non-empty links of the
    retained items, in item order, followed by the resolved feed URL. *)
Definition sourcesOf (r : resolution) : list string :=
  let '(items, srcURL, _) := r in
  filter nonEmpty (map Link (filterTransferItems items)) ++ [srcURL].

(** The items retained by the filter, over the sources that succeeded: source
    order first, item order within a source. *)
Definition retainedItems (rs : list resolution) : list rssItem :=
  flat_map (fun r : resolution => let '(items, _, _) := r in
                                  filterTransferItems items)
           (filter succeeded rs).

(** The snippets accumulated by the loop over the sources, before the
    fallback is considered. *)
Definition producedSnippets (w : World) : list string :=
  match fetchCyclingContext_range cyclingFeeds [] [] w with
  | (Ret (snippets, _), _, _) => snippets
  | (Panic _, _, _) => []
  end.

(** The shape of a snippet line. *)
Definition snippetFormat (title date : string) : string :=
  "- " ++ title ++ " (" ++ date ++ ")".

End Vocabulary.

(** ** A scripted platform for concrete runs

    The world is the list of responses still to be served: each request
    takes the next one, and a request made when none is left times out.  A
    body is the document it decodes to, or nothing when it is malformed;
    reading and closing it leave the world as it is.
    The non-ASCII path of the lower-casing keeps the bytes outside ASCII,
    which is what [unicode.ToLower] does to text whose accented letters are
    already lower case. *)
Module Script.

Definition response : Type := (string + Z * option rssFeed)%type.

Definition serve (_ : Z) (_ : httpRequest) (w : list response)
  : (string + Z * option rssFeed) * list response :=
  match w with
  | [] => (inl "context deadline exceeded", [])
  | r :: w' => (r, w')
  end.

Definition decode (b : option rssFeed) (w : list response)
  : (string + rssFeed) * list response :=
  match b with
  | Some feed => (inr feed, w)
  | None => (inl "XML syntax error", w)
  end.

Definition request (u : string) : option string :=
  if (u =? ":")%string then Some "missing protocol scheme" else None.

#[export] Instance platform : Platform := {|
  World := list response;
  Body := option rssFeed;
  new_request := request;
  client_do := serve;
  xml_decode := decode;
  body_close := fun _ w => w;
  unicode_lower := mapBytes lowerByte
|}.

Definition item (n : nat) (title : string) : rssItem :=
  mkItem title ("https://example.org/" ++ NilZero.string_of_uint (Nat.to_uint n))
         "Mon, 02 Jan 2006".

Definition ok (items : list rssItem) : response :=
  inr (200%Z, Some (mkFeed (mkChannel items))).

Definition sevenItems : list rssItem :=
  [ item 1 "Transfert: X rejoint Y"; item 2 "Résultats étape 3";
    item 3 "Mercato: Z signe"; item 4 "Classement"; item 5 "Etape 4";
    item 6 "Etape 5"; item 7 "Etape 6" ].

Definition twoItems : list rssItem :=
  [ item 1 "Transfert: X rejoint Y"; mkItem "Résultats étape 3" "" "" ].

Definition plainItems : list rssItem :=
  [ item 1 "Classement"; item 2 "Etape 4" ].

(** Candidate URLs; [badURL] is the one [request] refuses. *)
Definition urlA : string := "https://a.example/rss".
Definition urlB : string := "https://b.example/rss".
Definition urlC : string := "https://c.example/rss".
Definition badURL : string := ":".

End Script.

(** ** The rest of the program

    The summarising flow [cyclingRAG] and the log of its answer
    ([logRAGSummaries]) use three more functions of [strings], modelled on
    bytes like the others. *)

(** The newline byte, written [\n] in the Go source. *)
Definition newline : ascii := ascii_of_nat 10.
Definition nl : string := String newline EmptyString.

(** [strings.Split(s, sep)] for a separator of one byte. *)
Fixpoint SplitByte (sep : ascii) (s : string) : list string :=
  match s with
  | EmptyString => [EmptyString]
  | String c s' =>
      if Ascii.eqb c sep then EmptyString :: SplitByte sep s'
      else match SplitByte sep s' with
           | piece :: pieces => String c piece :: pieces
           | [] => [String c EmptyString]
           end
  end.

(** [s[n:]]. *)
Fixpoint dropBytes (n : nat) (s : string) : string :=
  match n, s with
  | O, _ => s
  | S n', String _ s' => dropBytes n' s'
  | S _, EmptyString => EmptyString
  end.

(** [strings.TrimPrefix(s, prefix)]. *)
Definition TrimPrefix (s prefix : string) : string :=
  if String.prefix prefix s then dropBytes (String.length prefix) s else s.

(** The white space of [strings.TrimSpace] is that of [unicode.IsSpace]:
    six ASCII bytes and the runes U+0085, U+00A0, U+1680, U+2000 to U+200A,
    U+2028, U+2029, U+202F, U+205F and U+3000, met in a string as their
    UTF-8 encodings of two or three bytes. *)
Definition byteIs (c : ascii) (n : N) : bool := (N_of_ascii c =? n)%N.

Definition asciiSpace (c : ascii) : bool :=
  byteIs c 9 || byteIs c 10 || byteIs c 11 || byteIs c 12 || byteIs c 13
  || byteIs c 32.

Definition space2 (c1 c2 : ascii) : bool :=
  byteIs c1 0xC2 && (byteIs c2 0x85 || byteIs c2 0xA0).

Definition space3 (c1 c2 c3 : ascii) : bool :=
  (byteIs c1 0xE1 && byteIs c2 0x9A && byteIs c3 0x80)
  || (byteIs c1 0xE2 && byteIs c2 0x80
      && (((0x80 <=? N_of_ascii c3)%N && (N_of_ascii c3 <=? 0x8A)%N)
          || byteIs c3 0xA8 || byteIs c3 0xA9 || byteIs c3 0xAF))
  || (byteIs c1 0xE2 && byteIs c2 0x81 && byteIs c3 0x9F)
  || (byteIs c1 0xE3 && byteIs c2 0x80 && byteIs c3 0x80).

(** Dropping the white space at the front of a byte sequence. *)
Fixpoint dropSpaces (l : list ascii) : list ascii :=
  match l with
  | c1 :: l1 =>
      if asciiSpace c1 then dropSpaces l1
      else match l1 with
           | c2 :: l2 =>
               if space2 c1 c2 then dropSpaces l2
               else match l2 with
                    | c3 :: l3 => if space3 c1 c2 c3 then dropSpaces l3 else l
                    | [] => l
                    end
           | [] => l
           end
  | [] => []
  end.

(** Dropping the white space at the back; [l] is the sequence reversed, so
    the bytes of an encoding come last byte first. *)
Fixpoint dropSpacesBack (l : list ascii) : list ascii :=
  match l with
  | c1 :: l1 =>
      if asciiSpace c1 then dropSpacesBack l1
      else match l1 with
           | c2 :: l2 =>
               if space2 c2 c1 then dropSpacesBack l2
               else match l2 with
                    | c3 :: l3 =>
                        if space3 c3 c2 c1 then dropSpacesBack l3 else l
                    | [] => l
                    end
           | [] => l
           end
  | [] => []
  end.

(** [strings.TrimSpace(s)]: the white space at the front is dropped, then
    the white space at the back of what is left. *)
Definition TrimSpace (s : string) : string :=
  string_of_list_ascii
    (rev (dropSpacesBack (rev (dropSpaces (list_ascii_of_string s))))).

(** *** Types and constants of the flows *)

(** [type CyclingRAGInput struct { Question string }] *)
Record CyclingRAGInput : Type := mkRAGInput { ragQuestion : string }.

(** [type CyclingRAGOutput struct { Answer string; Sources []string }] *)
Record CyclingRAGOutput : Type := mkRAGOutput {
  ragAnswer : string;
  ragSources : list string
}.

Definition defaultCyclingQuery : string :=
  "Quelles sont les dernières mutations et transferts en cyclisme ?".

Definition modelName : string := "googleai/gemini-2.0-flash".

Definition summaryHeader : string := "Mutations détectées :".

(** The prompt of the flow:
    [fmt.Sprintf("...\n...:\n%s\n\nQuestion : %s\n...", contextBlock, question)]. *)
Definition ragPrompt (contextBlock question : string) : string :=
  "Tu es un assistant cyclisme." ++ nl
  ++ "Contexte issu de flux d'actualités (mutations/transferts) :" ++ nl
  ++ contextBlock ++ nl ++ nl
  ++ "Question : " ++ question ++ nl
  ++ "Réponds en français par une liste concise de mutations : Nom — équipe actuelle -> équipe annoncée (ou rumeur). Si l'équipe n'est pas précisée, indique 'vers équipe inconnue'.".

(** The error of the flow: the one of the assembler or the one of the
    model call. *)
Inductive flowError : Type :=
| FlowContext (e : error)          (* fetchCyclingContext *)
| FlowGenerate (msg : string).     (* genkit.Generate *)

(** The model call of the Genkit SDK, outside the repository:
    [genkit.Generate(ctx, g, ai.WithModelName(m), ai.WithPrompt(p))] gives
    an error or a response, of which the flow reads [resp.Text()]. *)
Class Genkit (P : Platform) : Type := {
  generate : string -> string -> World -> (string + string) * World
}.

Section Flows.
Context `{P : Platform} {G : Genkit P}.

(** The function of the flow [cyclingRAG] in [main]. *)
Definition cyclingRAG (input : CyclingRAGInput)
  : M (CyclingRAGOutput * option flowError) :=
  let question := TrimSpace (ragQuestion input) in
  let question :=
    if (question =? "")%string then defaultCyclingQuery else question in
  '(snippets, sources, err) <- fetchCyclingContext ;;
  match err with
  | Some e => ret (mkRAGOutput "" [], Some (FlowContext e))
  | None =>
      let contextBlock := String.concat nl snippets in
      let prompt := ragPrompt contextBlock question in
      resp <- liftWorld (generate modelName prompt) ;;
      match resp with
      | inl msg => ret (mkRAGOutput "" [], Some (FlowGenerate msg))
      | inr text => ret (mkRAGOutput text sources, None)
      end
  end.

(** The body of the loop of [logRAGSummaries]: what is logged for one line
    of the answer, if anything. *)
Definition summaryItem (l : string) : option string :=
  let trimmed := TrimSpace l in
  let trimmed := TrimPrefix trimmed "*" in
  let trimmed := TrimPrefix trimmed "-" in
  let trimmed := TrimSpace trimmed in
  if negb (trimmed =? "")%string then Some ("- " ++ trimmed)%string else None.

(** The [for _, l := range lines] loop of [logRAGSummaries]. *)
Fixpoint logRAGSummaries_range (lines : list string) : M unit :=
  match lines with
  | [] => ret tt
  | l :: lines' =>
      match summaryItem l with
      | Some line => logPrintf line ;;; logRAGSummaries_range lines'
      | None => logRAGSummaries_range lines'
      end
  end.

(** [logRAGSummaries(answer)]. *)
Definition logRAGSummaries (answer : string) : M unit :=
  logPrintf summaryHeader ;;;
  logRAGSummaries_range (SplitByte newline answer).

End Flows.

(** The log lines of a trace, in order. *)
Fixpoint logged (t : list event) : list string :=
  match t with
  | [] => []
  | EvLog line :: t' => line :: logged t'
  | EvFetch _ :: t' => logged t'
  end.

(** A platform with a model: the world pairs the responses still to be
    served with the answers the model still has to give; a call made when
    no answer is left fails. *)
Module Demo.

Definition world : Type := (list Script.response * list (string + string))%type.

Definition serve (timeout : Z) (req : httpRequest) (w : world)
  : (string + Z * option rssFeed) * world :=
  let (r, q) := Script.serve timeout req (fst w) in (r, (q, snd w)).

Definition decode (b : option rssFeed) (w : world)
  : (string + rssFeed) * world :=
  (fst (Script.decode b (fst w)), w).

Definition answer (_ _ : string) (w : world) : (string + string) * world :=
  match snd w with
  | [] => (inl "model unavailable", w)
  | a :: rest => (a, (fst w, rest))
  end.

#[export] Instance platform : Platform := {|
  World := world;
  Body := option rssFeed;
  new_request := Script.request;
  client_do := serve;
  xml_decode := decode;
  body_close := fun _ w => w;
  unicode_lower := mapBytes lowerByte
|}.

#[export] Instance genkit : Genkit platform := {| generate := answer |}.

End Demo.

(** ** Properties *)

Section Properties.
Context `{P : Platform}.

Ltac unfold_monad :=
  unfold bind, ret, logPrintf, emit, liftWorld, panic, defer in *.

(** *** Feed Fetcher *)

(** An attempt leaves exactly one fetch event, whatever its result. *)
Lemma fetchRSSItems_trace (u : string) (limit : Z) (w : World) :
  snd (fetchRSSItems u limit w) = [EvFetch u].
Proof.
  unfold fetchRSSItems; unfold_monad.
  destruct (new_request u); [reflexivity|].
  destruct (client_do _ _ w) as [[msg | [status body]] w1]; [reflexivity|].
  destruct ((status <? 200)%Z || (status >=? 300)%Z); [reflexivity|].
  destruct (xml_decode body w1) as [[msg | feed] w2]; [reflexivity|].
  destruct (Z.of_nat (List.length (Items (Channel feed))) >? limit)%Z;
    [|reflexivity].
  destruct (limit <? 0)%Z; reflexivity.
Qed.

(** With a limit that is not negative the fetcher returns (it does not
    panic), and an error comes with no item. *)
Lemma fetchRSSItems_returns (u : string) (limit : Z) (w : World) :
  (0 <= limit)%Z ->
  exists items err w',
    fetchRSSItems u limit w = (Ret (items, err), w', [EvFetch u]) /\
    (err <> None -> items = []).
Proof.
  intros Hlimit. unfold fetchRSSItems; unfold_monad.
  destruct (new_request u) as [msg|].
  { eexists _, _, _; split; [reflexivity | reflexivity]. }
  destruct (client_do _ _ w) as [[msg | [status body]] w1].
  { eexists _, _, _; split; [reflexivity | reflexivity]. }
  destruct ((status <? 200)%Z || (status >=? 300)%Z).
  { eexists _, _, _; split; [reflexivity | reflexivity]. }
  destruct (xml_decode body w1) as [[msg | feed] w2].
  { eexists _, _, _; split; [reflexivity | reflexivity]. }
  destruct (Z.of_nat (List.length (Items (Channel feed))) >? limit)%Z.
  - destruct (limit <? 0)%Z eqn:Hneg; [lia|].
    eexists _, _, _; split; [reflexivity | intros H; now elim H].
  - eexists _, _, _; split; [reflexivity | intros H; now elim H].
Qed.

(** What the fetcher does with a response that has a 2xx status and a body
    that decodes. *)
Lemma fetchRSSItems_success (u : string) (limit : Z) (w w1 w2 : World)
    (status : Z) (body : Body) (feed : rssFeed) :
  new_request u = None ->
  client_do clientTimeout (mkRequest "GET" u userAgent) w
  = (inr (status, body), w1) ->
  (200 <= status < 300)%Z ->
  xml_decode body w1 = (inr feed, w2) ->
  (0 <= limit)%Z ->
  fetchRSSItems u limit w =
    (Ret (firstn (Z.to_nat limit) (Items (Channel feed)), None),
     body_close body w2, [EvFetch u]).
Proof.
  intros Hreq Hdo Hstatus Hdec Hlimit.
  unfold fetchRSSItems; unfold_monad. rewrite Hreq, Hdo.
  replace ((status <? 200)%Z || (status >=? 300)%Z) with false
    by (symmetry; apply orb_false_iff; lia).
  rewrite Hdec. cbv zeta.
  destruct (Z.of_nat (List.length (Items (Channel feed))) >? limit)%Z eqn:Hlen.
  - destruct (limit <? 0)%Z eqn:Hneg; [lia | reflexivity].
  - rewrite firstn_all2 by lia. reflexivity.
Qed.

(** C6: a fetched and parsed feed with more than 5 items comes back as
    exactly its first 5 items, in document order; a feed with at most 5
    items comes back unmodified.  In both cases the fetcher returns with a
    nil error. *)
Theorem fetchRSSItems_truncates (u : string) (w w1 w2 : World)
    (status : Z) (body : Body) (feed : rssFeed) :
  new_request u = None ->
  client_do clientTimeout (mkRequest "GET" u userAgent) w
  = (inr (status, body), w1) ->
  (200 <= status < 300)%Z ->
  xml_decode body w1 = (inr feed, w2) ->
  exists out,
    fetchRSSItems u 5 w
    = (Ret (out, None), body_close body w2, [EvFetch u]) /\
    (5 < List.length (Items (Channel feed)) ->
       List.length out = 5 /\
       exists rest, Items (Channel feed) = out ++ rest) /\
    (List.length (Items (Channel feed)) <= 5 -> out = Items (Channel feed)).
Proof.
  intros Hreq Hdo Hstatus Hdec.
  exists (firstn 5 (Items (Channel feed))). split; [|split].
  - now rewrite (fetchRSSItems_success u 5 w w1 w2 status body feed)
      by (auto; lia).
  - intros Hlen. split.
    + rewrite length_firstn. lia.
    + exists (skipn 5 (Items (Channel feed))). now rewrite firstn_skipn.
  - intros Hlen. now apply firstn_all2.
Qed.

(** *** Feed Resolver *)

Lemma fetched_app (t1 t2 : list event) :
  fetched (t1 ++ t2) = fetched t1 ++ fetched t2.
Proof.
  induction t1 as [|[u | line] t1 IH]; simpl; [reflexivity | | assumption].
  now rewrite IH.
Qed.

(** One turn of the resolver's loop, by the result of the attempt. *)
Lemma range_step_success (all rest : list string) (u : string) (limit : Z)
    (w w1 : World) (items : list rssItem) (t : list event) :
  fetchRSSItems u limit w = (Ret (items, None), w1, t) ->
  items <> [] ->
  fetchFirstWorkingFeed_range all (u :: rest) limit w
  = (Ret (items, u, None), w1, t ++ []).
Proof.
  intros Hfetch Hitems. cbn [fetchFirstWorkingFeed_range].
  unfold bind at 1. rewrite Hfetch.
  destruct items as [|it items]; [now elim Hitems | reflexivity].
Qed.

Lemma range_step_skip (all rest : list string) (u : string) (limit : Z)
    (w w1 : World) (r : outcome (list rssItem * option error))
    (t : list event) :
  fetchRSSItems u limit w = (r, w1, t) ->
  failsOrEmpty r = true ->
  exists tlog,
    fetched tlog = [] /\
    fetchFirstWorkingFeed_range all (u :: rest) limit w
    = (let '(r', w', t') := fetchFirstWorkingFeed_range all rest limit w1 in
       (r', w', t ++ tlog ++ t')).
Proof.
  intros Hfetch Hskip. cbn [fetchFirstWorkingFeed_range].
  unfold bind at 1. rewrite Hfetch.
  destruct r as [[items [e|]] | msg]; simpl in Hskip; try discriminate.
  - eexists [EvLog _]. split; [reflexivity|].
    unfold_monad.
    now destruct (fetchFirstWorkingFeed_range all rest limit w1) as [[r' w'] t'].
  - exists []. split; [reflexivity|].
    destruct items; [|discriminate]. simpl.
    now destruct (fetchFirstWorkingFeed_range all rest limit w1) as [[r' w'] t'].
Qed.

(** When every remaining candidate fails or is empty, the loop ends with
    the error built from the whole list, after attempting each of them. *)
Lemma range_exhausts (all rest : list string) (limit : Z) (w w' : World) :
  exhausts rest limit w = Some w' ->
  exists t,
    fetchFirstWorkingFeed_range all rest limit w
    = (Ret ([], "", Some (ErrNoWorkingURL all)), w', t) /\
    fetched t = rest.
Proof.
  revert w. induction rest as [|u rest IH]; intros w Hex; simpl in Hex.
  - injection Hex as <-. exists []. split; reflexivity.
  - destruct (fetchRSSItems u limit w) as [[r w1] t1] eqn:Hfetch.
    destruct (failsOrEmpty r) eqn:Hskip; [|discriminate].
    destruct (IH w1 Hex) as (t2 & Hrest & Ht2).
    destruct (range_step_skip all rest u limit w w1 r t1 Hfetch Hskip)
      as (tlog & Htlog & Hstep).
    rewrite Hstep, Hrest. eexists; split; [reflexivity|].
    pose proof (fetchRSSItems_trace u limit w) as Ht1.
    rewrite Hfetch in Ht1; simpl in Ht1; subst t1.
    rewrite !fetched_app, Htlog, Ht2. reflexivity.
Qed.

(** The loop stops at the first candidate that yields items. *)
Lemma range_first_success (all pre post : list string) (u : string)
    (limit : Z) (w w1 w2 : World) (items : list rssItem) (t : list event) :
  exhausts pre limit w = Some w1 ->
  fetchRSSItems u limit w1 = (Ret (items, None), w2, t) ->
  items <> [] ->
  exists t',
    fetchFirstWorkingFeed_range all (pre ++ u :: post) limit w
    = (Ret (items, u, None), w2, t') /\
    fetched t' = pre ++ [u].
Proof.
  revert w. induction pre as [|v pre IH]; intros w Hex Hfetch Hitems;
    simpl in Hex.
  - injection Hex as <-. simpl app.
    rewrite (range_step_success all post u limit w w2 items t Hfetch Hitems).
    eexists; split; [reflexivity|].
    pose proof (fetchRSSItems_trace u limit w) as Ht.
    rewrite Hfetch in Ht; simpl in Ht; subst t. reflexivity.
  - destruct (fetchRSSItems v limit w) as [[r wv] tv] eqn:Hv.
    destruct (failsOrEmpty r) eqn:Hskip; [|discriminate].
    destruct (IH wv Hex Hfetch Hitems) as (t2 & Hrest & Ht2).
    destruct (range_step_skip all (pre ++ u :: post) v limit w wv r tv Hv Hskip)
      as (tlog & Htlog & Hstep).
    simpl app. rewrite Hstep, Hrest. eexists; split; [reflexivity|].
    pose proof (fetchRSSItems_trace v limit w) as Htv.
    rewrite Hv in Htv; simpl in Htv; subst tv.
    rewrite !fetched_app, Htlog, Ht2. reflexivity.
Qed.

(** With a limit that is not negative the loop returns: either the items
    and the URL of a candidate, with a nil error, or the final error. *)
Lemma range_returns (all rest : list string) (limit : Z) (w : World) :
  (0 <= limit)%Z ->
  exists r w' t,
    fetchFirstWorkingFeed_range all rest limit w = (Ret r, w', t) /\
    ((exists items u, r = (items, u, None) /\ items <> [] /\ In u rest) \/
     r = ([], "", Some (ErrNoWorkingURL all))).
Proof.
  intros Hlimit. revert w. induction rest as [|u rest IH]; intros w.
  - eexists _, _, _. split; [reflexivity | now right].
  - destruct (fetchRSSItems_returns u limit w Hlimit)
      as (items & err & w1 & Hfetch & Herr).
    destruct (failsOrEmpty (Ret (items, err))) eqn:Hskip.
    + destruct (range_step_skip all rest u limit w w1 _ _ Hfetch Hskip)
        as (tlog & _ & Hstep).
      destruct (IH w1) as (r & w' & t & Hrest & Hr).
      rewrite Hstep, Hrest. eexists _, _, _. split; [reflexivity|].
      destruct Hr as [(items' & u' & -> & Hne & Hin) | ->]; [left | now right].
      exists items', u'. repeat split; auto. now right.
    + destruct err as [e|]; [discriminate|]. simpl in Hskip.
      assert (Hne : items <> []) by (intros ->; discriminate).
      rewrite (range_step_success all rest u limit w w1 items _ Hfetch Hne).
      eexists _, _, _. split; [reflexivity | left].
      exists items, u. repeat split; auto. now left.
Qed.

(** Substrings of the [%v] rendering of a list of strings. *)

Lemma append_assoc (a b c : string) :
  ((a ++ b) ++ c = a ++ (b ++ c))%string.
Proof. induction a as [|x a IH]; simpl; [reflexivity | now rewrite IH]. Qed.

Lemma append_empty_r (a : string) : (a ++ "")%string = a.
Proof. induction a as [|x a IH]; simpl; [reflexivity | now rewrite IH]. Qed.

Lemma prefix_append (u b : string) : String.prefix u (u ++ b)%string = true.
Proof.
  induction u as [|x u IH]; simpl.
  - now destruct b.
  - destruct (ascii_dec x x) as [_ | Hx]; [assumption | now elim Hx].
Qed.

Lemma Contains_append (a u b : string) :
  Contains (a ++ u ++ b)%string u = true.
Proof.
  induction a as [|x a IH].
  - change (EmptyString ++ u ++ b)%string with (u ++ b)%string.
    pose proof (prefix_append u b) as Hpre.
    destruct (u ++ b)%string; cbn [Contains]; now rewrite Hpre.
  - change (String x a ++ u ++ b)%string with (String x (a ++ u ++ b)%string).
    cbn [Contains]. rewrite IH. now destruct (String.prefix u _).
Qed.

Lemma concat_In (sep u : string) (l : list string) :
  In u l -> exists a b, String.concat sep l = (a ++ u ++ b)%string.
Proof.
  induction l as [|x l IH]; [intros [] |].
  intros [-> | Hin].
  - exists EmptyString. destruct l as [|y l].
    + exists EmptyString. symmetry. apply append_empty_r.
    + exists (sep ++ String.concat sep (y :: l))%string. reflexivity.
  - destruct (IH Hin) as (a & b & Hab).
    destruct l as [|y l]; [destruct Hin|].
    exists (x ++ sep ++ a)%string, b.
    change (String.concat sep (x :: y :: l))
      with (x ++ sep ++ String.concat sep (y :: l))%string.
    rewrite Hab, !append_assoc. reflexivity.
Qed.

Lemma Error_names_attempted (urls : list string) (u : string) :
  In u urls -> Contains (Error (ErrNoWorkingURL urls)) u = true.
Proof.
  intros Hin. destruct (concat_In " " u urls Hin) as (a & b & Hab).
  unfold Error, fmt_v. rewrite Hab.
  replace ("no working URL among " ++ "[" ++ (a ++ u ++ b) ++ "]")%string
    with (("no working URL among [" ++ a) ++ u ++ (b ++ "]"))%string.
  - apply Contains_append.
  - rewrite !append_assoc. reflexivity.
Qed.

(** C3: the resolver tries the candidates in sequence; at the first URL
    whose fetch succeeds with a non-empty item list (every candidate before
    it having failed or come back empty) it returns exactly that item list
    with that URL and a nil error.  The attempts made are the candidates up
    to that URL and no later one, and the world is the one that fetch left. *)
Theorem fetchFirstWorkingFeed_first_success (pre post : list string)
    (u : string) (limit : Z) (w w1 w2 : World) (items : list rssItem)
    (t : list event) :
  exhausts pre limit w = Some w1 ->
  fetchRSSItems u limit w1 = (Ret (items, None), w2, t) ->
  items <> [] ->
  exists t',
    fetchFirstWorkingFeed (pre ++ u :: post) limit w
    = (Ret (items, u, None), w2, t') /\
    fetched t' = pre ++ [u].
Proof.
  intros Hpre Hfetch Hitems. unfold fetchFirstWorkingFeed.
  exact (range_first_success _ pre post u limit w w1 w2 items t
           Hpre Hfetch Hitems).
Qed.

(** C7: when every candidate fails or returns an empty item list, the
    resolver returns no item, no URL and the error made from the candidate
    list; every candidate was attempted, in order, and the message of the
    error contains each of them. *)
Theorem fetchFirstWorkingFeed_exhausted (urls : list string) (limit : Z)
    (w w' : World) :
  exhausts urls limit w = Some w' ->
  exists t,
    fetchFirstWorkingFeed urls limit w
    = (Ret ([], "", Some (ErrNoWorkingURL urls)), w', t) /\
    fetched t = urls /\
    Error (ErrNoWorkingURL urls) = ("no working URL among " ++ fmt_v urls)%string /\
    forall u, In u urls -> Contains (Error (ErrNoWorkingURL urls)) u = true.
Proof.
  intros Hex. unfold fetchFirstWorkingFeed.
  destruct (range_exhausts urls urls limit w w' Hex) as (t & Hrun & Ht).
  exists t. repeat split; auto using Error_names_attempted.
Qed.

(** C10: for the empty candidate list the resolver returns an empty item
    list, an empty URL and an error, without any fetch attempt: no event is
    emitted and the world is untouched. *)
Theorem fetchFirstWorkingFeed_nil (limit : Z) (w : World) :
  fetchFirstWorkingFeed [] limit w
  = (Ret ([], "", Some (ErrNoWorkingURL [])), w, []).
Proof. reflexivity. Qed.

(** *** Item Filter *)

Lemma filter_twice {A : Type} (p : A -> bool) (l : list A) :
  filter p (filter p l) = filter p l.
Proof.
  induction l as [|x l IH]; simpl; [reflexivity|].
  destruct (p x) eqn:Hp; simpl; [rewrite Hp, IH|]; auto.
Qed.

(** The two exits of [filterTransferItems]. *)
Lemma filterTransferItems_none (items : list rssItem) :
  filter matchesKeyword items = [] -> filterTransferItems items = items.
Proof. unfold filterTransferItems. now intros ->. Qed.

Lemma filterTransferItems_some (items : list rssItem) :
  filter matchesKeyword items <> [] ->
  filterTransferItems items = filter matchesKeyword items.
Proof.
  unfold filterTransferItems. intros Hne.
  destruct (filter matchesKeyword items); [now elim Hne | reflexivity].
Qed.

Lemma filterTransferItems_twice (items : list rssItem) :
  filterTransferItems (filterTransferItems items) = filterTransferItems items.
Proof.
  destruct (filter matchesKeyword items) as [|it kept] eqn:Hkept.
  - now rewrite !(filterTransferItems_none items Hkept).
  - assert (Hne : filter matchesKeyword items <> []) by now rewrite Hkept.
    rewrite (filterTransferItems_some items Hne).
    rewrite filterTransferItems_some; rewrite filter_twice; auto.
Qed.

Lemma filterTransferItems_nonempty (items : list rssItem) :
  items <> [] -> filterTransferItems items <> [].
Proof.
  intros Hne. destruct (filter matchesKeyword items) as [|it kept] eqn:Hkept.
  - now rewrite (filterTransferItems_none items Hkept).
  - rewrite filterTransferItems_some; rewrite Hkept; discriminate.
Qed.

(** An item of which no keyword occurs in the lower-cased title is not
    retained by the keyword loop. *)
Lemma matchesKeyword_false (it : rssItem) :
  (forall kw, In kw transferKeywords -> Contains (ToLower (Title it)) kw = false) ->
  matchesKeyword it = false.
Proof.
  intros Hno. unfold matchesKeyword.
  destruct (existsb _ transferKeywords) eqn:Hex; [|reflexivity].
  apply existsb_exists in Hex. destruct Hex as (kw & Hin & Hkw).
  now rewrite (Hno kw Hin) in Hkw.
Qed.

(** C4: the filter is idempotent on non-empty lists. *)
Theorem filterTransferItems_idempotent (xs : list rssItem) :
  xs <> [] ->
  filterTransferItems (filterTransferItems xs) = filterTransferItems xs.
Proof. intros _. apply filterTransferItems_twice. Qed.

(** C5: a non-empty list in which no lower-cased title contains a keyword
    is returned unchanged; and whatever the titles, the filter returns a
    non-empty list for a non-empty input. *)
Theorem filterTransferItems_fallback (items : list rssItem) :
  items <> [] ->
  ((forall it kw, In it items -> In kw transferKeywords ->
      Contains (ToLower (Title it)) kw = false) ->
   filterTransferItems items = items) /\
  filterTransferItems items <> [].
Proof.
  intros Hne. split; [|now apply filterTransferItems_nonempty].
  intros Hno. apply filterTransferItems_none.
  induction items as [|it items IH]; [reflexivity|].
  simpl. rewrite matchesKeyword_false by (intros kw; apply Hno; now left).
  destruct items as [|it' items']; [reflexivity|].
  apply IH; [discriminate|]. intros it0 kw Hin. apply Hno. now right.
Qed.

(** *** Context Assembler *)

(** The loop over the retained items appends one line per item and the
    links that are not empty. *)
Lemma fetchCyclingContext_items_spec (its : list rssItem)
    (snippets sources : list string) :
  fetchCyclingContext_items its snippets sources
  = (snippets ++ map snippetLine its,
     sources ++ filter nonEmpty (map Link its)).
Proof.
  revert snippets sources.
  induction its as [|it its IH]; intros snippets sources.
  - cbn [fetchCyclingContext_items map filter]. now rewrite !app_nil_r.
  - cbn [fetchCyclingContext_items map filter]. rewrite IH. unfold nonEmpty.
    destruct (negb (Link it =? "")%string);
      now rewrite <- ?app_assoc.
Qed.

(** The resolver, called with the limit of the assembler, returns. *)
Lemma resolver_returns (urls0 : list string) (w : World) :
  exists r w' t,
    fetchFirstWorkingFeed urls0 maxItemsPerFeed w = (Ret r, w', t) /\
    ((exists items u, r = (items, u, None) /\ items <> [] /\ In u urls0) \/
     r = ([], "", Some (ErrNoWorkingURL urls0))).
Proof.
  unfold fetchFirstWorkingFeed. apply range_returns.
  unfold maxItemsPerFeed. lia.
Qed.

(** Every source gets an outcome; a failure is the exhaustion error of the
    source's own candidates, a success carries items. *)
Lemma resolveAll_outcomes (feeds : list feedSource) (w : World) :
  Forall2 (fun feed r =>
             (succeeded r = false ->
                r = ([], "", Some (ErrNoWorkingURL (urls feed)))) /\
             (succeeded r = true ->
                exists items u, r = (items, u, None) /\ items <> [] /\
                                In u (urls feed)))
          feeds (resolveAll feeds w).
Proof.
  revert w. induction feeds as [|feed feeds IH]; intros w; [constructor|].
  cbn [resolveAll].
  destruct (resolver_returns (urls feed) w) as (r & w1 & t & Hrun & Hr).
  rewrite Hrun. constructor; [|apply IH].
  destruct Hr as [(items & u & -> & Hne & Hin) | ->]; split;
    try discriminate; auto.
  intros _. now exists items, u.
Qed.

Lemma snippetsOf_succeeded (feeds : list feedSource) (w : World)
    (r : resolution) :
  In r (filter succeeded (resolveAll feeds w)) -> snippetsOf r <> [].
Proof.
  intros Hin. apply filter_In in Hin. destruct Hin as [Hin Hok].
  pose proof (resolveAll_outcomes feeds w) as Hall.
  induction Hall as [|feed r' feeds' rs' [_ Hsucc] _ IH]; [destruct Hin|].
  destruct Hin as [-> | Hin]; [|now apply IH].
  destruct (Hsucc Hok) as (items & u & -> & Hne & _).
  unfold snippetsOf. intros Hnil. apply map_eq_nil in Hnil.
  now apply (filterTransferItems_nonempty items Hne).
Qed.

(** The loop over the sources: what it adds to the accumulators is the
    contribution of each source that succeeded, in declaration order.  It
    always returns. *)
Lemma fetchCyclingContext_range_spec (feeds : list feedSource)
    (snippets sources : list string) (w : World) :
  Forall (fun feed => ~ In ""%string (urls feed)) feeds ->
  exists w' t,
    fetchCyclingContext_range feeds snippets sources w
    = (Ret (snippets ++ flat_map snippetsOf (filter succeeded (resolveAll feeds w)),
            sources ++ flat_map sourcesOf (filter succeeded (resolveAll feeds w))),
       w', t).
Proof.
  intros Hurls. revert snippets sources w.
  induction Hurls as [|feed feeds Hfeed _ IH]; intros snippets sources w.
  - eexists _, _. cbn. now rewrite !app_nil_r.
  - cbn [fetchCyclingContext_range resolveAll]. unfold bind at 1.
    destruct (resolver_returns (urls feed) w) as (r & w1 & t & Hrun & Hr).
    rewrite Hrun.
    destruct Hr as [(items & u & -> & Hne & Hin) | ->].
    + rewrite fetchCyclingContext_items_spec.
      assert (Hu : (u =? "")%string = false).
      { apply String.eqb_neq. intros ->. now apply Hfeed. }
      rewrite Hu. cbn [negb].
      destruct (IH (snippets ++ map snippetLine (filterTransferItems items))
                   ((sources ++ filter nonEmpty
                                  (map Link (filterTransferItems items)))
                    ++ [u]) w1) as (w' & t' & Hrest).
      rewrite Hrest. eexists _, _.
      cbn [filter succeeded flat_map snippetsOf sourcesOf].
      now rewrite <- !app_assoc.
    + unfold bind at 1, logPrintf at 1, emit at 1.
      destruct (IH snippets sources w1) as (w' & t' & Hrest).
      rewrite Hrest. eexists _, _.
      cbn [filter succeeded]. reflexivity.
Qed.

Lemma cyclingFeeds_urls : Forall (fun feed => ~ In ""%string (urls feed)) cyclingFeeds.
Proof.
  unfold cyclingFeeds.
  repeat constructor; cbn [urls In]; intros [H | []]; discriminate H.
Qed.

Lemma snippets_of_retained (rs : list resolution) :
  flat_map snippetsOf (filter succeeded rs) = map snippetLine (retainedItems rs).
Proof.
  unfold retainedItems.
  induction (filter succeeded rs) as [|[[items u] err] l IH]; [reflexivity|].
  cbn [flat_map snippetsOf]. now rewrite map_app, IH.
Qed.

Lemma length_sources (rs : list resolution) :
  List.length (flat_map sourcesOf rs)
  = list_sum (map (fun r : resolution =>
                     let '(items, _, _) := r in
                     List.length (filter nonEmpty
                                    (map Link (filterTransferItems items))) + 1)
                  rs).
Proof.
  induction rs as [|[[items u] err] rs IH]; [reflexivity|].
  cbn [flat_map map list_sum sourcesOf].
  rewrite !length_app, IH. reflexivity.
Qed.

(** The whole assembler in one equation: it returns, with a nil error, the
    contributions of the sources that succeeded, or the fallback snippet
    when there is none. *)
Lemma fetchCyclingContext_spec (w : World) :
  exists w' t,
    fetchCyclingContext w
    = (Ret (match flat_map snippetsOf (filter succeeded (resolveAll cyclingFeeds w)) with
            | [] => [fallbackSnippet]
            | line :: lines => line :: lines
            end,
            flat_map sourcesOf (filter succeeded (resolveAll cyclingFeeds w)),
            None), w', t) /\
    producedSnippets w
    = flat_map snippetsOf (filter succeeded (resolveAll cyclingFeeds w)).
Proof.
  destruct (fetchCyclingContext_range_spec cyclingFeeds [] [] w cyclingFeeds_urls)
    as (w1 & t1 & Hloop).
  unfold fetchCyclingContext, producedSnippets. unfold bind at 1.
  rewrite Hloop. cbn [app].
  destruct (flat_map snippetsOf _) as [|line lines].
  - eexists _, _. split; reflexivity.
  - eexists _, _. split; reflexivity.
Qed.

(** C1: the returned snippet list is never empty; and when the loop over
    the sources produced no snippet, the assembler returns exactly the
    fallback snippet and an empty source list. *)
Theorem fetchCyclingContext_fallback (w : World) :
  exists snippets sources w' t,
    fetchCyclingContext w = (Ret (snippets, sources, None), w', t) /\
    snippets <> [] /\
    (producedSnippets w = [] ->
       snippets = [fallbackSnippet] /\ sources = []).
Proof.
  destruct (fetchCyclingContext_spec w) as (w' & t & Hrun & Hprod).
  eexists _, _, w', t. split; [exact Hrun|]. split.
  - destruct (flat_map snippetsOf _); discriminate.
  - intros Hnone. rewrite Hprod in Hnone. rewrite Hnone. split; [reflexivity|].
    destruct (filter succeeded (resolveAll cyclingFeeds w)) as [|r rs] eqn:Hrs;
      [reflexivity|].
    exfalso. apply (snippetsOf_succeeded cyclingFeeds w r).
    + rewrite Hrs. now left.
    + cbn [flat_map] in Hnone. now apply app_eq_nil in Hnone.
Qed.

(** C2: in every world the assembler returns with a nil error.  Each source
    has a resolver outcome; a failed outcome is the exhaustion error of that
    source's candidates, and it is left out of the result: the snippets and
    the source URLs are those of the outcomes that succeeded, all of them,
    in order (the fallback snippet standing in when they give no line). *)
Theorem fetchCyclingContext_never_fails (w : World) :
  exists snippets sources w' t,
    fetchCyclingContext w = (Ret (snippets, sources, None), w', t) /\
    Forall2 (fun feed r =>
               succeeded r = false ->
               r = ([], ""%string, Some (ErrNoWorkingURL (urls feed))))
            cyclingFeeds (resolveAll cyclingFeeds w) /\
    sources = flat_map sourcesOf (filter succeeded (resolveAll cyclingFeeds w)) /\
    (snippets = flat_map snippetsOf (filter succeeded (resolveAll cyclingFeeds w))
     \/ (filter succeeded (resolveAll cyclingFeeds w) = [] /\
         snippets = [fallbackSnippet])).
Proof.
  destruct (fetchCyclingContext_spec w) as (w' & t & Hrun & _).
  eexists _, _, w', t. split; [exact Hrun|]. split; [|split; [reflexivity|]].
  - eapply Forall2_impl; [|apply resolveAll_outcomes].
    intros feed r [Hfail _]. exact Hfail.
  - destruct (filter succeeded (resolveAll cyclingFeeds w)) as [|r rs] eqn:Hrs.
    + right. split; reflexivity.
    + left. destruct (flat_map snippetsOf (r :: rs)) as [|line lines] eqn:Hl;
        [|reflexivity].
      exfalso. apply (snippetsOf_succeeded cyclingFeeds w r).
      * rewrite Hrs. now left.
      * cbn [flat_map] in Hl. now apply app_eq_nil in Hl.
Qed.

(** C8: the returned source URL list is, for each source that succeeded,
    in declaration order, the non-empty links of the retained items in item
    order followed by the resolved feed URL, which is one of the source's
    candidates.  Nothing is removed: the list has one entry per non-empty
    link and one per resolved URL. *)
Theorem fetchCyclingContext_sources (w : World) :
  exists snippets sources w' t,
    fetchCyclingContext w = (Ret (snippets, sources, None), w', t) /\
    sources
    = flat_map (fun r : resolution =>
                  let '(items, srcURL, _) := r in
                  filter nonEmpty (map Link (filterTransferItems items))
                  ++ [srcURL])
               (filter succeeded (resolveAll cyclingFeeds w)) /\
    List.length sources
    = list_sum (map (fun r : resolution =>
                       let '(items, _, _) := r in
                       List.length (filter nonEmpty
                                      (map Link (filterTransferItems items))) + 1)
                    (filter succeeded (resolveAll cyclingFeeds w))) /\
    Forall2 (fun feed r =>
               succeeded r = true ->
               exists items srcURL,
                 r = (items, srcURL, None) /\ In srcURL (urls feed))
            cyclingFeeds (resolveAll cyclingFeeds w).
Proof.
  destruct (fetchCyclingContext_spec w) as (w' & t & Hrun & _).
  eexists _, _, w', t. split; [exact Hrun|]. split; [reflexivity|]. split.
  - apply length_sources.
  - eapply Forall2_impl; [|apply resolveAll_outcomes].
    intros feed r [_ Hok] Hr. destruct (Hok Hr) as (items & u & -> & _ & Hin).
    now exists items, u.
Qed.

(** C9: when items are retained, the snippet list is exactly one line per
    retained item, sources in declaration order and items in item order
    within a source; a line is "- <title> (<date>)" with the publication
    date of the item, or the placeholder when that date is empty. *)
Theorem fetchCyclingContext_snippets (w : World) :
  exists snippets sources w' t,
    fetchCyclingContext w = (Ret (snippets, sources, None), w', t) /\
    snippets
    = match retainedItems (resolveAll cyclingFeeds w) with
      | [] => [fallbackSnippet]
      | it :: its => map snippetLine (it :: its)
      end /\
    forall it,
      snippetLine it
      = snippetFormat (Title it)
          (if string_dec (PubDate it) "" then "date inconnue"%string
           else PubDate it).
Proof.
  destruct (fetchCyclingContext_spec w) as (w' & t & Hrun & _).
  eexists _, _, w', t. split; [exact Hrun|]. split.
  - rewrite snippets_of_retained.
    now destruct (retainedItems (resolveAll cyclingFeeds w)).
  - intros it. unfold snippetLine, snippetFormat, unknownDate.
    destruct (string_dec (PubDate it) "") as [-> | Hne]; [reflexivity|].
    apply String.eqb_neq in Hne. now rewrite Hne.
Qed.

End Properties.

(** ** Concrete runs on the scripted platform *)

Module Runs.
Import Script.

(** A feed document with seven items, served with status 200. *)
Lemma fetchRSSItems_truncates_witness :
  exists out,
    fetchRSSItems (P := platform) urlA 5 [ok sevenItems]
    = (Ret (out, None), [], [EvFetch urlA]) /\
    (5 < List.length (Items (Channel (mkFeed (mkChannel sevenItems)))) ->
       List.length out = 5 /\
       exists rest, Items (Channel (mkFeed (mkChannel sevenItems))) = out ++ rest) /\
    (List.length (Items (Channel (mkFeed (mkChannel sevenItems)))) <= 5 ->
       out = Items (Channel (mkFeed (mkChannel sevenItems)))).
Proof.
  apply (@fetchRSSItems_truncates platform urlA [ok sevenItems] [] [] 200%Z
           (Some (mkFeed (mkChannel sevenItems))) (mkFeed (mkChannel sevenItems)));
    [reflexivity | reflexivity | lia | reflexivity].
Defined.

(** The first candidate answers with an empty feed, the second cannot be
    made into a request, the third has items: the fourth is never tried. *)
Lemma fetchFirstWorkingFeed_first_success_witness :
  exists t',
    fetchFirstWorkingFeed (P := platform) ([urlA; badURL] ++ urlB :: [urlC]) 5
      [ok []; ok plainItems; ok twoItems]
    = (Ret (plainItems, urlB, None), [ok twoItems], t') /\
    fetched t' = [urlA; badURL] ++ [urlB].
Proof.
  apply (@fetchFirstWorkingFeed_first_success platform [urlA; badURL] [urlC]
           urlB 5%Z [ok []; ok plainItems; ok twoItems]
           [ok plainItems; ok twoItems] [ok twoItems] plainItems [EvFetch urlB]);
    [reflexivity | reflexivity | discriminate].
Defined.

(** An empty feed, a malformed URL and a timeout: every candidate is
    exhausted. *)
Lemma fetchFirstWorkingFeed_exhausted_witness :
  exists t,
    fetchFirstWorkingFeed (P := platform) [urlA; badURL; urlB] 5 [ok []]
    = (Ret ([], ""%string, Some (ErrNoWorkingURL [urlA; badURL; urlB])), [], t) /\
    fetched t = [urlA; badURL; urlB] /\
    Error (ErrNoWorkingURL [urlA; badURL; urlB])
    = ("no working URL among " ++ fmt_v [urlA; badURL; urlB])%string /\
    forall u, In u [urlA; badURL; urlB] ->
              Contains (Error (ErrNoWorkingURL [urlA; badURL; urlB])) u = true.
Proof.
  apply (@fetchFirstWorkingFeed_exhausted platform [urlA; badURL; urlB] 5%Z
           [ok []] []).
  reflexivity.
Defined.

Lemma filterTransferItems_idempotent_witness :
  filterTransferItems (P := platform) (filterTransferItems sevenItems)
  = filterTransferItems sevenItems.
Proof.
  apply (@filterTransferItems_idempotent platform sevenItems). discriminate.
Defined.

(** No title of [plainItems] holds a keyword. *)
Lemma filterTransferItems_fallback_witness :
  filterTransferItems (P := platform) plainItems = plainItems /\
  filterTransferItems (P := platform) plainItems <> [].
Proof.
  destruct (@filterTransferItems_fallback platform plainItems) as [Hsame Hne];
    [discriminate|].
  split; [apply Hsame | exact Hne].
  intros it kw Hit Hkw.
  destruct Hit as [<- | [<- | []]];
    repeat (destruct Hkw as [<- | Hkw]; [vm_compute; reflexivity|]);
    destruct Hkw.
Defined.

(** No response is left to serve: both sources time out. *)
Lemma fetchCyclingContext_fallback_witness :
  exists snippets sources w' t,
    fetchCyclingContext (P := platform) [] = (Ret (snippets, sources, None), w', t) /\
    snippets = [fallbackSnippet] /\ sources = [].
Proof.
  destruct (@fetchCyclingContext_fallback platform [])
    as (snippets & sources & w' & t & Hrun & _ & Hfallback).
  exists snippets, sources, w', t. split; [exact Hrun|].
  apply Hfallback. vm_compute. reflexivity.
Defined.

(** The scenario of the specification: of the two items of source A the
    filter retains the first, and the assembler makes one line of it. *)
Example scenario_filter :
  filterTransferItems (P := platform) twoItems = [item 1 "Transfert: X rejoint Y"].
Proof. vm_compute. reflexivity. Qed.

Example scenario_assembly :
  fetchCyclingContext (P := platform) [ok twoItems; inl "boom"%string]
  = (Ret (["- Transfert: X rejoint Y (Mon, 02 Jan 2006)"%string],
          ["https://example.org/1"%string;
           "https://dwh.lequipe.fr/api/edito/rss?path=/Cyclisme/"%string],
          None),
     [],
     [EvFetch "https://dwh.lequipe.fr/api/edito/rss?path=/Cyclisme/";
      EvFetch "https://feeds.feedburner.com/ActualitsDirectvelo";
      EvLog "feed attempt failed (https://feeds.feedburner.com/ActualitsDirectvelo): boom";
      EvLog "skip feed DirectVelo: no working URL among [https://feeds.feedburner.com/ActualitsDirectvelo]"]).
Proof. vm_compute. reflexivity. Qed.

(** An item without a date gets the placeholder, one without a link adds
    no source URL. *)
Example scenario_placeholder :
  fst (fst (fetchCyclingContext (P := platform)
              [ok [mkItem "Classement" "" ""]; inr (503%Z, None)]))
  = Ret (["- Classement (date inconnue)"%string],
         ["https://dwh.lequipe.fr/api/edito/rss?path=/Cyclisme/"%string], None).
Proof. vm_compute. reflexivity. Qed.

(** Two sources carrying the same story: its link is listed twice. *)
Example scenario_duplicates :
  fst (fst (fetchCyclingContext (P := platform)
              [ok [item 1 "Mercato"]; ok [item 1 "Mercato"]]))
  = Ret (["- Mercato (Mon, 02 Jan 2006)"%string;
          "- Mercato (Mon, 02 Jan 2006)"%string],
         ["https://example.org/1"%string;
          "https://dwh.lequipe.fr/api/edito/rss?path=/Cyclisme/"%string;
          "https://example.org/1"%string;
          "https://feeds.feedburner.com/ActualitsDirectvelo"%string], None).
Proof. vm_compute. reflexivity. Qed.

(** [items[:limit]] with a negative limit is out of range. *)
Example negative_limit_panics :
  fetchRSSItems (P := platform) urlA (-1) [ok []]
  = (Panic "slice bounds out of range", [], [EvFetch urlA]).
Proof. vm_compute. reflexivity. Qed.

Example status_message : Error (ErrStatus 404) = "status 404"%string.
Proof. vm_compute. reflexivity. Qed.

End Runs.

(** ** Further properties of the pipeline *)

Section Further.
Context `{P : Platform}.

Ltac unfold_run :=
  unfold bind, ret, logPrintf, emit, liftWorld, panic, defer in *.

(** *** Feed Fetcher *)

Lemma fetch_bounded (u : string) (limit : Z) (w : World) :
  (0 <= limit)%Z ->
  exists items err w',
    fetchRSSItems u limit w = (Ret (items, err), w', [EvFetch u]) /\
    (Z.of_nat (List.length items) <= limit)%Z /\
    (err <> None -> items = []).
Proof.
  intros Hlimit. unfold fetchRSSItems; unfold_run.
  destruct (new_request u) as [msg|].
  { eexists _, _, _; repeat split; simpl; lia. }
  destruct (client_do _ _ w) as [[msg | [status body]] w1].
  { eexists _, _, _; repeat split; simpl; lia. }
  destruct ((status <? 200)%Z || (status >=? 300)%Z).
  { eexists _, _, _; repeat split; simpl; lia. }
  destruct (xml_decode body w1) as [[msg | feed] w2].
  { eexists _, _, _; repeat split; simpl; lia. }
  destruct (Z.of_nat (List.length (Items (Channel feed))) >? limit)%Z eqn:Hlen.
  - destruct (limit <? 0)%Z eqn:Hneg; [lia|].
    eexists _, _, _; repeat split.
    + rewrite length_firstn. lia.
    + intros H; now elim H.
  - eexists _, _, _; repeat split; [lia | intros H; now elim H].
Qed.

(** X1: with a limit that is not negative the fetcher returns, with at
    most [limit] items, after exactly one attempt; an error comes with no
    item. *)
Theorem fetchRSSItems_bounded (u : string) (limit : Z) (w : World) :
  (0 <= limit)%Z ->
  exists items err w',
    fetchRSSItems u limit w = (Ret (items, err), w', [EvFetch u]) /\
    (Z.of_nat (List.length items) <= limit)%Z /\
    (err <> None -> items = []).
Proof. apply fetch_bounded. Qed.

(** X2: the fetcher returns a nil error exactly when the request could be
    made, the transport answered, the status is in 200..299 and the body
    decoded; the items are then the first [limit] of the document and the
    body has been closed. *)
Theorem fetchRSSItems_nil_error_iff (u : string) (limit : Z) (w w' : World)
    (items : list rssItem) (err : option error) (t : list event) :
  (0 <= limit)%Z ->
  fetchRSSItems u limit w = (Ret (items, err), w', t) ->
  (err = None <->
   exists status body w1 feed w2,
     new_request u = None /\
     client_do clientTimeout (mkRequest "GET" u userAgent) w
     = (inr (status, body), w1) /\
     (200 <= status < 300)%Z /\
     xml_decode body w1 = (inr feed, w2) /\
     items = firstn (Z.to_nat limit) (Items (Channel feed)) /\
     w' = body_close body w2).
Proof.
  intros Hlimit Hrun. split.
  - intros ->. revert Hrun. unfold fetchRSSItems; unfold_run.
    destruct (new_request u) as [msg|]; [discriminate|].
    destruct (client_do _ _ w) as [[msg | [status body]] w1] eqn:Hdo;
      [discriminate|].
    destruct ((status <? 200)%Z || (status >=? 300)%Z) eqn:Hstatus;
      [discriminate|].
    destruct (xml_decode body w1) as [[msg | feed] w2] eqn:Hdec;
      [discriminate|].
    apply orb_false_iff in Hstatus.
    intros Hrun. exists status, body, w1, feed, w2.
    repeat split; try lia; auto.
    + destruct (Z.of_nat (List.length (Items (Channel feed))) >? limit)%Z
        eqn:Hlen.
      * destruct (limit <? 0)%Z; [discriminate|]. now injection Hrun as <- _.
      * injection Hrun as <- _. rewrite firstn_all2 by lia. reflexivity.
    + destruct (Z.of_nat (List.length (Items (Channel feed))) >? limit)%Z.
      * destruct (limit <? 0)%Z; [discriminate|]. now injection Hrun as _ <-.
      * now injection Hrun as _ <-.
  - intros (status & body & w1 & feed & w2 & Hreq & Hdo & Hstatus & Hdec & _ & _).
    rewrite (fetchRSSItems_success u limit w w1 w2 status body feed) in Hrun
      by auto.
    now injection Hrun as _ <- _ _.
Qed.

(** X3: with a negative limit, any response that decodes makes the fetcher
    panic on [items[:limit]], even an empty document; the deferred close of
    the body still runs. *)
Theorem fetchRSSItems_negative_limit (u : string) (limit : Z)
    (w w1 w2 : World) (status : Z) (body : Body) (feed : rssFeed) :
  (limit < 0)%Z ->
  new_request u = None ->
  client_do clientTimeout (mkRequest "GET" u userAgent) w
  = (inr (status, body), w1) ->
  (200 <= status < 300)%Z ->
  xml_decode body w1 = (inr feed, w2) ->
  fetchRSSItems u limit w
  = (Panic "slice bounds out of range", body_close body w2, [EvFetch u]).
Proof.
  intros Hlimit Hreq Hdo Hstatus Hdec.
  unfold fetchRSSItems; unfold_run. rewrite Hreq, Hdo.
  replace ((status <? 200)%Z || (status >=? 300)%Z) with false
    by (symmetry; apply orb_false_iff; lia).
  rewrite Hdec. cbv zeta.
  replace (Z.of_nat (List.length (Items (Channel feed))) >? limit)%Z with true
    by (symmetry; apply Z.gtb_lt; lia).
  replace (limit <? 0)%Z with true by (symmetry; apply Z.ltb_lt; lia).
  reflexivity.
Qed.

(** *** Feed Resolver *)

(** The loop of the resolver, seen from its result: a nil error means that
    the returned URL is the first candidate that worked, an error that
    every candidate was tried in vain. *)
Lemma range_inversion (all rest : list string) (limit : Z) (w w' : World)
    (items : list rssItem) (u : string) (err : option error) (t : list event) :
  fetchFirstWorkingFeed_range all rest limit w = (Ret (items, u, err), w', t) ->
  (err = None /\
   exists pre post w1,
     rest = pre ++ u :: post /\
     exhausts pre limit w = Some w1 /\
     fetchRSSItems u limit w1 = (Ret (items, None), w', [EvFetch u]) /\
     items <> [] /\
     fetched t = pre ++ [u]) \/
  (err = Some (ErrNoWorkingURL all) /\ items = [] /\ u = ""%string /\
   exhausts rest limit w = Some w' /\ fetched t = rest).
Proof.
  revert w t. induction rest as [|v rest IH]; intros w t Hrun.
  - right. cbn in Hrun. injection Hrun as <- <- <- <- <-. now repeat split.
  - destruct (fetchRSSItems v limit w) as [[r wv] tv] eqn:Hv.
    pose proof (fetchRSSItems_trace v limit w) as Htv.
    rewrite Hv in Htv; simpl in Htv; subst tv.
    destruct (failsOrEmpty r) eqn:Hskip.
    + destruct (range_step_skip all rest v limit w wv r _ Hv Hskip)
        as (tlog & Htlog & Hstep).
      rewrite Hstep in Hrun.
      destruct (fetchFirstWorkingFeed_range all rest limit wv)
        as [[r' w''] t'] eqn:Hrest.
      injection Hrun as -> -> <-.
      destruct (IH wv t' Hrest)
        as [(-> & pre & post & w1 & -> & Hpre & Hu & Hne & Ht)
           | (-> & -> & -> & Hex & Ht)].
      * left. split; [reflexivity|]. exists (v :: pre), post, w1.
        repeat split; auto.
        -- simpl. now rewrite Hv, Hskip.
        -- cbn [app fetched]. rewrite fetched_app, Htlog, Ht. reflexivity.
      * right. repeat split; auto.
        -- simpl. now rewrite Hv, Hskip.
        -- cbn [app fetched]. rewrite fetched_app, Htlog, Ht. reflexivity.
    + destruct r as [[items' [e|]] | msg]; simpl in Hskip; try discriminate.
      * assert (Hne : items' <> []) by (intros ->; discriminate).
        rewrite (range_step_success all rest v limit w wv items' _ Hv Hne)
          in Hrun.
        injection Hrun as <- <- <- <- <-.
        left. split; [reflexivity|]. exists [], rest, w. now repeat split.
      * cbn [fetchFirstWorkingFeed_range] in Hrun. unfold bind at 1 in Hrun.
        rewrite Hv in Hrun. discriminate.
Qed.

(** X4: whenever the resolver returns a nil error, the URL it returns is
    the first candidate that worked: the candidates before it all failed or
    came back empty, the items are those of that candidate's fetch, and the
    attempts stop there.  Whenever it returns an error, no item and no URL
    come with it, and every candidate was tried in vain. *)
Theorem fetchFirstWorkingFeed_inversion (urls0 : list string) (limit : Z)
    (w w' : World) (items : list rssItem) (u : string) (err : option error)
    (t : list event) :
  fetchFirstWorkingFeed urls0 limit w = (Ret (items, u, err), w', t) ->
  (err = None /\
   exists pre post w1,
     urls0 = pre ++ u :: post /\
     exhausts pre limit w = Some w1 /\
     fetchRSSItems u limit w1 = (Ret (items, None), w', [EvFetch u]) /\
     items <> [] /\
     fetched t = pre ++ [u]) \/
  (err = Some (ErrNoWorkingURL urls0) /\ items = [] /\ u = ""%string /\
   exhausts urls0 limit w = Some w' /\ fetched t = urls0).
Proof. apply range_inversion. Qed.

Lemma resolver_shape (urls0 : list string) (limit : Z) (w : World) :
  (0 <= limit)%Z ->
  exists items u err w' t,
    fetchFirstWorkingFeed urls0 limit w = (Ret (items, u, err), w', t) /\
    ((err = None /\ items <> [] /\
      (Z.of_nat (List.length items) <= limit)%Z /\ In u urls0) \/
     (err = Some (ErrNoWorkingURL urls0) /\ items = [] /\ u = ""%string)).
Proof.
  intros Hlimit.
  destruct (range_returns urls0 urls0 limit w Hlimit)
    as ([[items u] err] & w' & t & Hrun & _).
  exists items, u, err, w', t. split; [exact Hrun|].
  destruct (range_inversion _ _ _ _ _ _ _ _ _ Hrun)
    as [(-> & pre & post & w1 & Hsplit & _ & Hu & Hne & _)
       | (-> & -> & -> & _)].
  - left. repeat split; auto.
    + destruct (fetch_bounded u limit w1 Hlimit)
        as (items' & err' & w2 & Hu' & Hlen & _).
      rewrite Hu in Hu'. now injection Hu' as -> _ _.
    + rewrite Hsplit. apply in_or_app. right. now left.
  - now right.
Qed.

(** X5: with a limit that is not negative the resolver returns, and its
    result has one of two shapes: between 1 and [limit] items, one of the
    candidates and a nil error; or no item, the empty URL and the error
    naming all the candidates. *)
Theorem fetchFirstWorkingFeed_shape (urls0 : list string) (limit : Z)
    (w : World) :
  (0 <= limit)%Z ->
  exists items u err w' t,
    fetchFirstWorkingFeed urls0 limit w = (Ret (items, u, err), w', t) /\
    ((err = None /\ items <> [] /\
      (Z.of_nat (List.length items) <= limit)%Z /\ In u urls0) \/
     (err = Some (ErrNoWorkingURL urls0) /\ items = [] /\ u = ""%string)).
Proof. apply resolver_shape. Qed.

(** X6: with limit 0 no candidate can work: every fetch is cut down to no
    item, so the resolver tries all the candidates and fails. *)
Theorem fetchFirstWorkingFeed_limit_zero (urls0 : list string) (w : World) :
  exists w' t,
    fetchFirstWorkingFeed urls0 0 w
    = (Ret ([], ""%string, Some (ErrNoWorkingURL urls0)), w', t) /\
    fetched t = urls0.
Proof.
  destruct (resolver_shape urls0 0 w ltac:(lia))
    as (items & u & err & w' & t & Hrun & Hshape).
  destruct Hshape as [(_ & Hne & Hlen & _) | (-> & -> & ->)].
  - destruct items; [now elim Hne | simpl in Hlen; lia].
  - exists w', t. split; [exact Hrun|].
    destruct (range_inversion _ _ _ _ _ _ _ _ _ Hrun)
      as [(Hnil & _) | (_ & _ & _ & _ & Ht)]; [discriminate | exact Ht].
Qed.

(** *** Item Filter *)

Lemma mapBytes_no_upper (s : string) :
  hasUpper s = false -> mapBytes lowerByte s = s.
Proof.
  induction s as [|c s IH]; [reflexivity|]. cbn [hasUpper mapBytes].
  intros Hup. apply orb_false_iff in Hup. destruct Hup as [Hc Hs].
  rewrite (IH Hs). unfold lowerByte. now rewrite Hc.
Qed.

(** On a string of ASCII bytes [strings.ToLower] lowers each byte. *)
Lemma ToLower_ascii (s : string) :
  isASCII s = true -> ToLower s = mapBytes lowerByte s.
Proof.
  intros Hascii. unfold ToLower. rewrite Hascii.
  destruct (hasUpper s) eqn:Hup; [reflexivity|].
  symmetry. now apply mapBytes_no_upper.
Qed.

(** X7: for titles made of ASCII bytes the keyword test does not see the
    case of the letters: two titles that are equal once their upper-case
    letters are lowered are both retained or both rejected. *)
Theorem matchesKeyword_ascii_case (a b : rssItem) :
  isASCII (Title a) = true ->
  isASCII (Title b) = true ->
  mapBytes lowerByte (Title a) = mapBytes lowerByte (Title b) ->
  matchesKeyword a = matchesKeyword b.
Proof.
  intros Ha Hb Hsame. unfold matchesKeyword.
  now rewrite (ToLower_ascii _ Ha), (ToLower_ascii _ Hb), Hsame.
Qed.

(** X8: the filter only selects: its result is the input filtered by some
    test, so it keeps the relative order of the items, invents none and is
    never longer than the input. *)
Theorem filterTransferItems_selection (items : list rssItem) :
  (exists keep, filterTransferItems items = filter keep items) /\
  List.length (filterTransferItems items) <= List.length items /\
  (forall it, In it (filterTransferItems items) -> In it items).
Proof.
  destruct (filter matchesKeyword items) as [|it0 kept] eqn:Hkept.
  - rewrite (filterTransferItems_none items Hkept). split; [|split; auto].
    exists (fun _ => true). induction items as [|x items IH]; [reflexivity|].
    simpl. f_equal. apply IH.
    simpl in Hkept. destruct (matchesKeyword x); [discriminate | exact Hkept].
  - assert (Hne : filter matchesKeyword items <> []) by now rewrite Hkept.
    rewrite (filterTransferItems_some items Hne). split; [|split].
    + now exists matchesKeyword.
    + apply filter_length_le.
    + intros it Hin. now apply filter_In in Hin.
Qed.

(** X9: as soon as one title holds a keyword, the result is exactly the
    items whose title holds one: every retained item matches and every
    matching item is retained. *)
Theorem filterTransferItems_matching (items : list rssItem) :
  existsb matchesKeyword items = true ->
  filterTransferItems items = filter matchesKeyword items /\
  forall it,
    In it (filterTransferItems items) <->
    In it items /\ matchesKeyword it = true.
Proof.
  intros Hex. apply existsb_exists in Hex. destruct Hex as (x & Hin & Hx).
  assert (Hne : filter matchesKeyword items <> []).
  { intros Hnil. assert (Hx' : In x (filter matchesKeyword items))
      by (apply filter_In; auto).
    now rewrite Hnil in Hx'. }
  rewrite (filterTransferItems_some items Hne). split; [reflexivity|].
  intros it. apply filter_In.
Qed.

(** *** Context Assembler *)

Lemma filterTransferItems_length (items : list rssItem) :
  List.length (filterTransferItems items) <= List.length items.
Proof.
  unfold filterTransferItems.
  destruct (List.length (filter matchesKeyword items) =? 0)%nat; [lia|].
  apply filter_length_le.
Qed.

(** Every source has an outcome, and an outcome has at most
    [maxItemsPerFeed] items. *)
Lemma resolveAll_bounded (feeds : list feedSource) (w : World) :
  List.length (resolveAll feeds w) = List.length feeds /\
  Forall (fun r : resolution => let '(items, _, _) := r in
                                List.length items <= 5)
         (resolveAll feeds w).
Proof.
  revert w. induction feeds as [|feed feeds IH]; intros w.
  - split; [reflexivity | constructor].
  - cbn [resolveAll].
    destruct (resolver_shape (urls feed) maxItemsPerFeed w)
      as (items & u & err & w1 & t & Hrun & Hshape);
      [unfold maxItemsPerFeed; lia|].
    rewrite Hrun. destruct (IH w1) as [Hlen Hall]. split.
    + simpl. now rewrite Hlen.
    + constructor; [|exact Hall].
      unfold maxItemsPerFeed in Hshape.
      destruct Hshape as [(_ & _ & Hle & _) | (_ & -> & _)]; simpl; lia.
Qed.

Lemma snippets_length (rs : list resolution) :
  Forall (fun r : resolution => let '(items, _, _) := r in
                                List.length items <= 5) rs ->
  List.length (flat_map snippetsOf rs) <= 5 * List.length rs.
Proof.
  induction 1 as [|[[items u] err] rs Hr _ IH]; [simpl; lia|].
  cbn [flat_map snippetsOf]. rewrite length_app, length_map.
  pose proof (filterTransferItems_length items). simpl List.length. lia.
Qed.

Lemma sources_length (rs : list resolution) :
  List.length (flat_map sourcesOf rs)
  <= List.length (flat_map snippetsOf rs) + List.length rs.
Proof.
  induction rs as [|[[items u] err] rs IH]; [simpl; lia|].
  cbn [flat_map snippetsOf sourcesOf].
  rewrite !length_app, length_map.
  pose proof (filter_length_le nonEmpty (map Link (filterTransferItems items)))
    as Hlinks.
  rewrite length_map in Hlinks. simpl List.length. lia.
Qed.

Lemma succeeded_length (feeds : list feedSource) (w : World) :
  List.length (filter succeeded (resolveAll feeds w)) <= List.length feeds.
Proof.
  destruct (resolveAll_bounded feeds w) as [<- _]. apply filter_length_le.
Qed.

(** X10: the context is bounded: in every world the assembler returns
    between 1 and 10 snippets (two sources of at most 5 items), and at most
    one source URL per snippet plus one per source. *)
Theorem fetchCyclingContext_bounds (w : World) :
  exists snippets sources w' t,
    fetchCyclingContext w = (Ret (snippets, sources, None), w', t) /\
    1 <= List.length snippets <= 10 /\
    List.length sources <= List.length snippets + 2.
Proof.
  destruct (fetchCyclingContext_spec w) as (w' & t & Hrun & _).
  eexists _, _, w', t. split; [exact Hrun|].
  pose proof (succeeded_length cyclingFeeds w) as Hsucc.
  change (List.length cyclingFeeds) with 2 in Hsucc.
  pose proof (sources_length (filter succeeded (resolveAll cyclingFeeds w)))
    as Hsrc.
  assert (Hsn : List.length (flat_map snippetsOf
                  (filter succeeded (resolveAll cyclingFeeds w)))
                <= 5 * List.length (filter succeeded (resolveAll cyclingFeeds w))).
  { apply snippets_length. apply incl_Forall with (l1 := resolveAll cyclingFeeds w).
    - intros r Hr. now apply filter_In in Hr.
    - apply resolveAll_bounded. }
  destruct (flat_map snippetsOf _) as [|line lines] eqn:Hlines.
  - destruct (filter succeeded (resolveAll cyclingFeeds w)) as [|r rs] eqn:Hrs.
    + simpl. lia.
    + exfalso. apply (snippetsOf_succeeded cyclingFeeds w r).
      * rewrite Hrs. now left.
      * cbn [flat_map] in Hlines. now apply app_eq_nil in Hlines.
  - simpl List.length in *. lia.
Qed.

(** A line made from an item is never the fallback snippet: it ends with a
    closing bracket, the fallback with a full stop. *)
Lemma append_last_inj (s s' : string) (a b : ascii) :
  (s ++ String a EmptyString)%string = (s' ++ String b EmptyString)%string ->
  a = b.
Proof.
  revert s'. induction s as [|x s IH]; intros [|y s'] Heq; simpl in Heq.
  - now injection Heq.
  - injection Heq as _ Heq. destruct s'; discriminate.
  - injection Heq as _ Heq. destruct s; discriminate.
  - injection Heq as _ Heq. now apply IH in Heq.
Qed.

Lemma snippetLine_not_fallback (it : rssItem) : snippetLine it <> fallbackSnippet.
Proof.
  unfold snippetLine. intros Heq.
  assert (Hend : ")"%char = "."%char); [|discriminate].
  apply (append_last_inj
           ("- " ++ Title it ++ " ("
            ++ (if (PubDate it =? "")%string then unknownDate else PubDate it))
           "- Aucun flux cyclisme accessible pour le moment. Réponds de façon générale et prudente sur les transferts récents").
  rewrite !append_assoc. exact Heq.
Qed.

Lemma snippetsOf_not_fallback (rs : list resolution) :
  ~ In fallbackSnippet (flat_map snippetsOf rs).
Proof.
  intros Hin. apply in_flat_map in Hin.
  destruct Hin as ([[items u] err] & _ & Hin).
  unfold snippetsOf in Hin. apply in_map_iff in Hin.
  destruct Hin as (it & Heq & _). now apply (snippetLine_not_fallback it).
Qed.

Lemma fallback_iff_lists (rs : list resolution) :
  (forall r, In r rs -> snippetsOf r <> []) ->
  let snippets := match flat_map snippetsOf rs with
                  | [] => [fallbackSnippet]
                  | line :: lines => line :: lines
                  end in
  (In fallbackSnippet snippets <-> flat_map sourcesOf rs = []) /\
  (flat_map sourcesOf rs = [] <-> rs = []) /\
  (flat_map sourcesOf rs = [] -> snippets = [fallbackSnippet]).
Proof.
  intros Hsucc snippets. subst snippets.
  destruct rs as [|[[items u] err] rs].
  - cbn [flat_map]. repeat split; auto. now left.
  - assert (Hsrc : flat_map sourcesOf ((items, u, err) :: rs) <> []).
    { cbn [flat_map sourcesOf]. intros Hnil.
      apply app_eq_nil in Hnil. destruct Hnil as [Hnil _].
      apply app_eq_nil in Hnil. destruct Hnil as [_ Hnil]. discriminate. }
    pose proof (snippetsOf_not_fallback ((items, u, err) :: rs)) as Hnot.
    match goal with
    | |- context [match ?l with [] => _ | _ :: _ => _ end] =>
        destruct l as [|line lines] eqn:Hlines
    end.
    + exfalso. apply (Hsucc (items, u, err)); [now left|].
      cbn [flat_map] in Hlines. now apply app_eq_nil in Hlines.
    + repeat split; try (intros H; now elim Hsrc); try discriminate.
      intros Hin. elim Hnot. exact (eq_ind_r (In fallbackSnippet) Hin Hlines).
Qed.

(** X11: the fallback can be told from the result: the fallback snippet is
    in the list exactly when the source list is empty, which is exactly
    when no source succeeded.  No item, whatever its title, produces the
    fallback line. *)
Theorem fetchCyclingContext_fallback_iff (w : World) :
  exists snippets sources w' t,
    fetchCyclingContext w = (Ret (snippets, sources, None), w', t) /\
    (In fallbackSnippet snippets <-> sources = []) /\
    (sources = [] <-> filter succeeded (resolveAll cyclingFeeds w) = []) /\
    (sources = [] -> snippets = [fallbackSnippet]).
Proof.
  destruct (fetchCyclingContext_spec w) as (w' & t & Hrun & _).
  eexists _, _, w', t. split; [exact Hrun|].
  apply fallback_iff_lists. apply snippetsOf_succeeded.
Qed.

(** X12: every snippet the assembler returns starts with the list marker. *)
Theorem fetchCyclingContext_marker (w : World) :
  exists snippets sources w' t,
    fetchCyclingContext w = (Ret (snippets, sources, None), w', t) /\
    forall line, In line snippets -> String.prefix "- " line = true.
Proof.
  destruct (fetchCyclingContext_spec w) as (w' & t & Hrun & _).
  eexists _, _, w', t. split; [exact Hrun|].
  assert (Hall : forall line,
             In line (flat_map snippetsOf
                        (filter succeeded (resolveAll cyclingFeeds w))) ->
             String.prefix "- " line = true).
  { intros line Hin. apply in_flat_map in Hin.
    destruct Hin as ([[items u] err] & _ & Hin).
    unfold snippetsOf in Hin. apply in_map_iff in Hin.
    destruct Hin as (it & <- & _). unfold snippetLine. apply prefix_append. }
  destruct (flat_map snippetsOf _) as [|l ls]; [|exact Hall].
  intros line [<- | []]. reflexivity.
Qed.

(** The events of the two loops: the resolver with one candidate makes one
    attempt, and no loop logs the fallback warning. *)
Lemma range_single_fetched (all : list string) (u : string) (limit : Z)
    (w : World) :
  fetched (snd (fetchFirstWorkingFeed_range all [u] limit w)) = [u].
Proof.
  cbn [fetchFirstWorkingFeed_range]. unfold bind at 1.
  pose proof (fetchRSSItems_trace u limit w) as Ht.
  destruct (fetchRSSItems u limit w) as [[r w1] t1].
  cbn [snd] in Ht. subst t1.
  destruct r as [[items [e|]] | msg]; [| |reflexivity].
  - unfold_run. reflexivity.
  - destruct (0 <? List.length items)%nat; reflexivity.
Qed.

Lemma range_no_warning (all rest : list string) (limit : Z) (w : World) :
  ~ In (EvLog fallbackWarning)
       (snd (fetchFirstWorkingFeed_range all rest limit w)).
Proof.
  revert w. induction rest as [|u rest IH]; intros w; [intros []|].
  cbn [fetchFirstWorkingFeed_range]. unfold bind at 1.
  pose proof (fetchRSSItems_trace u limit w) as Ht.
  destruct (fetchRSSItems u limit w) as [[r w1] t1].
  cbn [snd] in Ht. subst t1.
  specialize (IH w1).
  destruct r as [[items [e|]] | msg].
  - unfold bind at 1, logPrintf at 1, emit at 1.
    destruct (fetchFirstWorkingFeed_range all rest limit w1) as [[r' w'] t'].
    cbn [snd app] in *. intros [H | [H | H]]; [discriminate | | now apply IH].
    injection H as H. unfold fallbackWarning in H. simpl in H. discriminate.
  - destruct (0 <? List.length items)%nat.
    + cbn. intros [H | []]. discriminate.
    + destruct (fetchFirstWorkingFeed_range all rest limit w1) as [[r' w'] t'].
      cbn [snd app] in *. intros [H | H]; [discriminate | now apply IH].
  - cbn. intros [H | []]. discriminate.
Qed.

Lemma loop_events (feeds : list feedSource) (snippets sources : list string)
    (w : World) :
  Forall (fun feed => exists u, urls feed = [u]) feeds ->
  fetched (snd (fetchCyclingContext_range feeds snippets sources w))
  = flat_map urls feeds /\
  ~ In (EvLog fallbackWarning)
       (snd (fetchCyclingContext_range feeds snippets sources w)).
Proof.
  intros Hone. revert snippets sources w.
  induction Hone as [|feed feeds [u Hu] _ IH]; intros snippets sources w.
  - split; [reflexivity | intros []].
  - cbn [fetchCyclingContext_range flat_map]. unfold bind at 1 3.
    unfold fetchFirstWorkingFeed. rewrite Hu.
    pose proof (range_single_fetched [u] u maxItemsPerFeed w) as Hfetched.
    pose proof (range_no_warning [u] [u] maxItemsPerFeed w) as Hquiet.
    destruct (resolver_returns [u] w) as (r0 & w0 & t0 & Hrun & _).
    unfold fetchFirstWorkingFeed in Hrun. rewrite Hrun in *.
    cbn [snd] in Hfetched, Hquiet.
    destruct r0 as [[items srcURL] [e|]].
    + unfold bind at 1 2, logPrintf at 1 2, emit at 1 2.
      destruct (IH snippets sources w0) as [IHf IHq].
      destruct (fetchCyclingContext_range feeds snippets sources w0)
        as [[r' w'] t'].
      cbn [snd] in *. split.
      * rewrite !fetched_app, Hfetched, IHf. reflexivity.
      * intros Hin. apply in_app_or in Hin. destruct Hin as [Hin | Hin];
          [now apply Hquiet|].
        cbn [app] in Hin. destruct Hin as [H | Hin]; [|now apply IHq].
        injection H as H. unfold fallbackWarning in H. simpl in H.
        discriminate.
    + destruct (fetchCyclingContext_items (filterTransferItems items)
                                         snippets sources) as [sn so].
      match goal with
      | |- context [fetchCyclingContext_range feeds ?a ?b w0] =>
          destruct (IH a b w0) as [IHf IHq];
          destruct (fetchCyclingContext_range feeds a b w0) as [[r' w'] t']
      end.
      cbn [snd] in *. split.
      * rewrite fetched_app, Hfetched, IHf. reflexivity.
      * intros Hin. apply in_app_or in Hin. tauto.
Qed.

Lemma cyclingFeeds_single :
  Forall (fun feed => exists u, urls feed = [u]) cyclingFeeds.
Proof. unfold cyclingFeeds. repeat constructor; eexists; reflexivity. Qed.

(** X13: in every world the assembler attempts each configured feed once,
    in declaration order: a source that fails does not keep the next one
    from being fetched, and nothing else is fetched. *)
Theorem fetchCyclingContext_attempts (w : World) :
  fetched (snd (fetchCyclingContext w))
  = [ "https://dwh.lequipe.fr/api/edito/rss?path=/Cyclisme/"%string;
      "https://feeds.feedburner.com/ActualitsDirectvelo"%string ].
Proof.
  destruct (loop_events cyclingFeeds [] [] w cyclingFeeds_single) as [Hf _].
  unfold fetchCyclingContext. unfold bind at 1.
  destruct (fetchCyclingContext_range cyclingFeeds [] [] w) as [[r w1] t1].
  cbn [snd] in Hf.
  destruct r as [[sn so] | msg]; [|exact Hf].
  destruct (List.length sn =? 0)%nat.
  - unfold bind at 1, logPrintf at 1, emit at 1, ret at 1.
    cbn [snd]. rewrite !fetched_app, Hf. reflexivity.
  - unfold ret at 1. cbn [snd]. rewrite fetched_app, Hf. reflexivity.
Qed.

Lemma lines_nil_iff (rs : list resolution) :
  (forall r, In r rs -> snippetsOf r <> []) ->
  (flat_map snippetsOf rs = [] <-> flat_map sourcesOf rs = []).
Proof.
  intros Hsucc. destruct rs as [|[[items u] err] rs]; [now split|].
  split; intros Hnil; exfalso; cbn [flat_map sourcesOf] in Hnil.
  - apply (Hsucc (items, u, err)); [now left|]. now apply app_eq_nil in Hnil.
  - apply app_eq_nil in Hnil. destruct Hnil as [Hnil _].
    apply app_eq_nil in Hnil. destruct Hnil as [_ Hnil]. discriminate.
Qed.

(** X14: the fallback warning is logged exactly when the assembler returns
    no source URL, that is when it falls back. *)
Theorem fetchCyclingContext_warning (w : World) :
  exists snippets sources w' t,
    fetchCyclingContext w = (Ret (snippets, sources, None), w', t) /\
    (In (EvLog fallbackWarning) t <-> sources = []).
Proof.
  destruct (fetchCyclingContext_range_spec cyclingFeeds [] [] w cyclingFeeds_urls)
    as (w1 & t1 & Hloop).
  destruct (loop_events cyclingFeeds [] [] w cyclingFeeds_single) as [_ Hquiet].
  rewrite Hloop in Hquiet. cbn [snd] in Hquiet.
  pose proof (lines_nil_iff (filter succeeded (resolveAll cyclingFeeds w))
                (snippetsOf_succeeded cyclingFeeds w)) as Hiff.
  unfold fetchCyclingContext. unfold bind at 1. rewrite Hloop. cbn [app].
  match goal with
  | |- context [Nat.eqb (List.length ?l) 0] =>
      destruct l as [|line lines] eqn:Hlines
  end.
  - eexists _, _, _, _. split; [reflexivity|].
    split; [intros _; now apply Hiff|]. intros _.
    apply in_or_app. right. now left.
  - eexists _, _, _, _. split; [reflexivity|].
    rewrite app_nil_r. split; [intros Hin; now elim Hquiet|].
    intros Hnil. apply Hiff in Hnil. discriminate.
Qed.

End Further.

(** ** Properties of the summarising flow *)

Section FlowProperties.
Context `{P : Platform} {G : Genkit P}.

Lemma Contains_skip (a s u : string) :
  Contains s u = true -> Contains (a ++ s)%string u = true.
Proof.
  intros Hs. induction a as [|x a IH]; [exact Hs|].
  change (String x a ++ s)%string with (String x (a ++ s)%string).
  cbn [Contains]. rewrite IH. now destruct (String.prefix u _).
Qed.

Lemma Contains_head (u b : string) : Contains (u ++ b)%string u = true.
Proof. exact (Contains_append EmptyString u b). Qed.

(** X15: the prompt carries the whole context: the question and every
    snippet line occur in it. *)
Theorem ragPrompt_embeds (snippets : list string) (question : string) :
  Contains (ragPrompt (String.concat nl snippets) question) question = true /\
  forall line, In line snippets ->
    Contains (ragPrompt (String.concat nl snippets) question) line = true.
Proof.
  unfold ragPrompt. split.
  - do 8 apply Contains_skip. apply Contains_head.
  - intros line Hin. destruct (concat_In nl line snippets Hin) as (a & b & ->).
    do 4 apply Contains_skip. rewrite !append_assoc. apply Contains_append.
Qed.


(** X17: a question that is blank (empty once trimmed) is answered as the
    default question. *)
Theorem cyclingRAG_blank_question (input : CyclingRAGInput) (w : World) :
  TrimSpace (ragQuestion input) = ""%string ->
  cyclingRAG input w = cyclingRAG (mkRAGInput defaultCyclingQuery) w.
Proof.
  intros Hblank. unfold cyclingRAG. rewrite Hblank. cbn [ragQuestion].
  replace (TrimSpace defaultCyclingQuery) with defaultCyclingQuery
    by (vm_compute; reflexivity).
  reflexivity.
Qed.

End FlowProperties.

(** ** Properties of the log of the answer *)

Section SummaryProperties.
Context `{P : Platform}.

(** Splitting gives one piece more than there are separators. *)
Lemma SplitByte_length (sep : ascii) (s : string) :
  List.length (SplitByte sep s)
  = S (count_occ ascii_dec (list_ascii_of_string s) sep).
Proof.
  induction s as [|c s IH]; [reflexivity|].
  cbn [SplitByte list_ascii_of_string count_occ].
  destruct (Ascii.eqb_spec c sep) as [-> | Hne].
  - destruct (ascii_dec sep sep) as [_ | Hx]; [|now elim Hx].
    simpl. now rewrite IH.
  - destruct (ascii_dec c sep) as [Heq | _]; [now elim Hne|].
    rewrite <- IH. now destruct (SplitByte sep s).
Qed.

(** *** Blank answers *)

Lemma dropSpaces_blank (l : list ascii) :
  forallb asciiSpace l = true -> dropSpaces l = [].
Proof.
  induction l as [|c l IH]; [reflexivity|]. cbn [forallb dropSpaces].
  intros H. apply andb_true_iff in H. destruct H as [Hc Hl].
  rewrite Hc. now apply IH.
Qed.

Lemma summaryItem_blank (l : string) :
  forallb asciiSpace (list_ascii_of_string l) = true -> summaryItem l = None.
Proof.
  intros Hblank. unfold summaryItem, TrimSpace at 2.
  rewrite (dropSpaces_blank _ Hblank). reflexivity.
Qed.

Lemma SplitByte_blank (sep : ascii) (s : string) :
  forallb asciiSpace (list_ascii_of_string s) = true ->
  Forall (fun piece => forallb asciiSpace (list_ascii_of_string piece) = true)
         (SplitByte sep s).
Proof.
  induction s as [|c s IH]; [repeat constructor|].
  cbn [list_ascii_of_string forallb SplitByte].
  intros H. apply andb_true_iff in H. destruct H as [Hc Hs].
  specialize (IH Hs). destruct (Ascii.eqb c sep).
  - constructor; [reflexivity | exact IH].
  - destruct (SplitByte sep s) as [|piece pieces].
    + repeat constructor. cbn. now rewrite Hc.
    + inversion IH as [|? ? Hpiece Hpieces]; subst.
      constructor; [|exact Hpieces]. cbn. now rewrite Hc, Hpiece.
Qed.

Lemma logRAGSummaries_range_blank (lines : list string) (w : World) :
  Forall (fun l => forallb asciiSpace (list_ascii_of_string l) = true) lines ->
  logRAGSummaries_range lines w = (Ret tt, w, []).
Proof.
  induction 1 as [|l lines Hl _ IH]; [reflexivity|].
  cbn [logRAGSummaries_range]. now rewrite (summaryItem_blank l Hl).
Qed.

(** X19: an answer made of ASCII white space only (spaces, tabs, line
    breaks), the empty answer included, logs the header and nothing else. *)
Theorem logRAGSummaries_blank (answer : string) (w : World) :
  forallb asciiSpace (list_ascii_of_string answer) = true ->
  logRAGSummaries answer w = (Ret tt, w, [EvLog summaryHeader]).
Proof.
  intros Hblank. unfold logRAGSummaries, bind, logPrintf, emit.
  now rewrite (logRAGSummaries_range_blank _ w (SplitByte_blank newline _ Hblank)).
Qed.

(** *** Bullet lists *)

(** Trimming only removes bytes: what is left at the front is a suffix of
    the sequence, and likewise at the back. *)
Lemma dropSpaces_suffix_n (n : nat) (l : list ascii) :
  List.length l <= n -> exists p, l = p ++ dropSpaces l.
Proof.
  revert l. induction n as [|n IH]; intros l Hl.
  - destruct l; [now exists [] | simpl in Hl; lia].
  - destruct l as [|c1 l1]; [now exists []|]. cbn [dropSpaces].
    simpl in Hl. destruct (asciiSpace c1).
    { destruct (IH l1 ltac:(lia)) as (p & Hp).
      exists (c1 :: p). simpl. now rewrite <- Hp. }
    destruct l1 as [|c2 l2]; [now exists []|].
    simpl in Hl. destruct (space2 c1 c2).
    { destruct (IH l2 ltac:(lia)) as (p & Hp).
      exists (c1 :: c2 :: p). simpl. now rewrite <- Hp. }
    destruct l2 as [|c3 l3]; [now exists []|].
    simpl in Hl. destruct (space3 c1 c2 c3); [|now exists []].
    destruct (IH l3 ltac:(lia)) as (p & Hp).
    exists (c1 :: c2 :: c3 :: p). simpl. now rewrite <- Hp.
Qed.

Lemma dropSpacesBack_suffix_n (n : nat) (l : list ascii) :
  List.length l <= n -> exists p, l = p ++ dropSpacesBack l.
Proof.
  revert l. induction n as [|n IH]; intros l Hl.
  - destruct l; [now exists [] | simpl in Hl; lia].
  - destruct l as [|c1 l1]; [now exists []|]. cbn [dropSpacesBack].
    simpl in Hl. destruct (asciiSpace c1).
    { destruct (IH l1 ltac:(lia)) as (p & Hp).
      exists (c1 :: p). simpl. now rewrite <- Hp. }
    destruct l1 as [|c2 l2]; [now exists []|].
    simpl in Hl. destruct (space2 c2 c1).
    { destruct (IH l2 ltac:(lia)) as (p & Hp).
      exists (c1 :: c2 :: p). simpl. now rewrite <- Hp. }
    destruct l2 as [|c3 l3]; [now exists []|].
    simpl in Hl. destruct (space3 c3 c2 c1); [|now exists []].
    destruct (IH l3 ltac:(lia)) as (p & Hp).
    exists (c1 :: c2 :: c3 :: p). simpl. now rewrite <- Hp.
Qed.

Lemma dropSpaces_length (l : list ascii) :
  List.length (dropSpaces l) <= List.length l.
Proof.
  destruct (dropSpaces_suffix_n (List.length l) l (le_n _)) as (p & Hp).
  rewrite Hp at 2. rewrite length_app. lia.
Qed.

Lemma dropSpacesBack_length (l : list ascii) :
  List.length (dropSpacesBack l) <= List.length l.
Proof.
  destruct (dropSpacesBack_suffix_n (List.length l) l (le_n _)) as (p & Hp).
  rewrite Hp at 2. rewrite length_app. lia.
Qed.

Lemma suffix_whole {A : Type} (p m l : list A) :
  l = p ++ m -> List.length l <= List.length m -> m = l.
Proof.
  intros -> Hlen. rewrite length_app in Hlen.
  destruct p; [reflexivity | simpl in Hlen; lia].
Qed.

(** A text that trimming leaves as it is has no white space at either end. *)
Lemma TrimSpace_fixed (x : string) :
  TrimSpace x = x ->
  dropSpaces (list_ascii_of_string x) = list_ascii_of_string x /\
  dropSpacesBack (rev (list_ascii_of_string x)) = rev (list_ascii_of_string x).
Proof.
  unfold TrimSpace. intros Hx. apply (f_equal list_ascii_of_string) in Hx.
  rewrite list_ascii_of_string_of_list_ascii in Hx.
  set (lx := list_ascii_of_string x) in *.
  pose proof (dropSpaces_length lx) as Hfront.
  pose proof (dropSpacesBack_length (rev (dropSpaces lx))) as Hback.
  assert (Hlen : List.length lx
                 = List.length (dropSpacesBack (rev (dropSpaces lx)))).
  { rewrite <- Hx at 1. apply length_rev. }
  rewrite length_rev in Hback.
  destruct (dropSpaces_suffix_n _ lx (le_n _)) as (p & Hp).
  assert (Hsame : dropSpaces lx = lx) by (apply (suffix_whole p); [exact Hp | lia]).
  split; [exact Hsame|].
  rewrite Hsame in Hx. rewrite <- Hx at 2. now rewrite rev_involutive.
Qed.

Lemma dropSpacesBack_marked (d : ascii) (l : list ascii) :
  d = "-"%char \/ d = "*"%char ->
  l <> [] ->
  dropSpacesBack l = l ->
  dropSpacesBack (l ++ [" "%char; d]) = l ++ [" "%char; d].
Proof.
  intros Hd Hne Hfix.
  destruct l as [|c1 l1]; [now elim Hne|].
  assert (Hshort : forall m, dropSpacesBack m = c1 :: l1 ->
                             List.length m < List.length (c1 :: l1) -> False).
  { intros m Hm Hlt. pose proof (dropSpacesBack_length m) as Hle.
    rewrite Hm in Hle. lia. }
  cbn [dropSpacesBack] in Hfix. cbn [app dropSpacesBack].
  destruct (asciiSpace c1) eqn:Hc1.
  { exfalso. apply (Hshort l1 Hfix). simpl. lia. }
  destruct l1 as [|c2 l2].
  { destruct Hd as [-> | ->]; reflexivity. }
  cbn [app]. destruct (space2 c2 c1) eqn:Hc2.
  { exfalso. apply (Hshort l2 Hfix). simpl. lia. }
  destruct l2 as [|c3 l3].
  { destruct Hd as [-> | ->]; reflexivity. }
  cbn [app]. destruct (space3 c3 c2 c1) eqn:Hc3; [|reflexivity].
  exfalso. apply (Hshort l3 Hfix). simpl. lia.
Qed.

Lemma TrimSpace_marked (d : ascii) (x : string) :
  d = "-"%char \/ d = "*"%char ->
  TrimSpace x = x ->
  x <> ""%string ->
  TrimSpace (String d (String " " x)) = String d (String " " x).
Proof.
  intros Hd Hx Hne. destruct (TrimSpace_fixed x Hx) as [_ Hback].
  unfold TrimSpace. cbn [list_ascii_of_string].
  replace (dropSpaces (d :: " "%char :: list_ascii_of_string x))
    with (d :: " "%char :: list_ascii_of_string x)
    by (destruct Hd as [-> | ->]; destruct (list_ascii_of_string x);
        reflexivity).
  cbn [rev]. rewrite <- app_assoc. cbn [app].
  rewrite (dropSpacesBack_marked d _ Hd); [| |exact Hback].
  - rewrite rev_app_distr, rev_involutive. cbn [rev app string_of_list_ascii].
    now rewrite string_of_list_ascii_of_string.
  - intros Hnil. apply Hne.
    rewrite <- (string_of_list_ascii_of_string x).
    rewrite <- (rev_involutive (list_ascii_of_string x)), Hnil. reflexivity.
Qed.

(** A line that already is a list item, with either marker, is logged as
    the item with the hyphen. *)
Lemma summaryItem_marked (d : ascii) (x : string) :
  d = "-"%char \/ d = "*"%char ->
  TrimSpace x = x ->
  x <> ""%string ->
  summaryItem (String d (String " " x)) = Some ("- " ++ x)%string.
Proof.
  intros Hd Hx Hne. unfold summaryItem.
  rewrite (TrimSpace_marked d x Hd Hx Hne).
  replace (TrimPrefix (TrimPrefix (String d (String " " x)) "*") "-")
    with (String " " x)
    by (destruct Hd as [-> | ->]; reflexivity).
  change (TrimSpace (String " " x)) with (TrimSpace x). rewrite Hx.
  apply String.eqb_neq in Hne. now rewrite Hne.
Qed.

(** Splitting at line breaks undoes joining with line breaks, for pieces
    without a line break. *)
Lemma SplitByte_none (sep : ascii) (s : string) :
  ~ In sep (list_ascii_of_string s) -> SplitByte sep s = [s].
Proof.
  induction s as [|c s IH]; [reflexivity|].
  cbn [list_ascii_of_string SplitByte]. intros Hnot.
  destruct (Ascii.eqb_spec c sep) as [-> | Hne]; [elim Hnot; now left|].
  rewrite IH; [reflexivity|]. intros Hin. apply Hnot. now right.
Qed.

Lemma SplitByte_append (sep : ascii) (s rest : string) :
  ~ In sep (list_ascii_of_string s) ->
  SplitByte sep (s ++ String sep rest)%string = s :: SplitByte sep rest.
Proof.
  induction s as [|c s IH]; intros Hnot.
  - cbn [append SplitByte]. now rewrite Ascii.eqb_refl.
  - change (String c s ++ String sep rest)%string
      with (String c (s ++ String sep rest)%string).
    cbn [SplitByte]. cbn [list_ascii_of_string] in Hnot.
    destruct (Ascii.eqb_spec c sep) as [-> | Hne]; [elim Hnot; now left|].
    rewrite IH; [reflexivity|]. intros Hin. apply Hnot. now right.
Qed.

Lemma SplitByte_concat (ls : list string) :
  ls <> [] ->
  Forall (fun l => ~ In newline (list_ascii_of_string l)) ls ->
  SplitByte newline (String.concat nl ls) = ls.
Proof.
  intros Hne Hall. induction Hall as [|l ls Hl Hls IH]; [now elim Hne|].
  destruct ls as [|l2 ls].
  - cbn [String.concat]. now apply SplitByte_none.
  - change (String.concat nl (l :: l2 :: ls))
      with (l ++ String newline (String.concat nl (l2 :: ls)))%string.
    rewrite (SplitByte_append newline l _ Hl). f_equal.
    apply IH. discriminate.
Qed.

Lemma logRAGSummaries_range_items (ls xs : list string) (w : World) :
  Forall2 (fun l x => summaryItem l = Some ("- " ++ x)%string) ls xs ->
  logRAGSummaries_range ls w
  = (Ret tt, w, map EvLog (map (fun x => "- " ++ x)%string xs)).
Proof.
  induction 1 as [|l x ls xs Hl _ IH]; [reflexivity|].
  cbn [logRAGSummaries_range map]. rewrite Hl.
  unfold bind, logPrintf, emit. now rewrite IH.
Qed.

(** X20: an answer that is a list, one item per line, each line a marker
    (hyphen or asterisk), a space and a text with no white space around it,
    is logged as the header followed by the same items, all with the
    hyphen. *)
Theorem logRAGSummaries_bullets (ls xs : list string) (w : World) :
  Forall2 (fun l x =>
             (l = String "-" (String " " x) \/ l = String "*" (String " " x)) /\
             TrimSpace x = x /\ x <> ""%string /\
             ~ In newline (list_ascii_of_string x))
          ls xs ->
  logRAGSummaries (String.concat nl ls) w
  = (Ret tt, w,
     map EvLog (summaryHeader :: map (fun x => "- " ++ x)%string xs)).
Proof.
  intros Hlines. unfold logRAGSummaries, bind, logPrintf, emit.
  destruct ls as [|l ls].
  - inversion Hlines; subst. reflexivity.
  - rewrite SplitByte_concat; [| discriminate |].
    + rewrite (logRAGSummaries_range_items (l :: ls) xs w); [reflexivity|].
      eapply Forall2_impl; [|exact Hlines].
      intros l0 x (Hl0 & Hx & Hne & _).
      destruct Hl0 as [-> | ->]; apply summaryItem_marked; auto.
    + clear w. induction Hlines as [|l0 x ls0 xs0 (Hl0 & _ & _ & Hnl) _ IH];
        constructor; auto.
      intros Hin. destruct Hl0 as [-> | ->]; cbn [list_ascii_of_string] in Hin;
        destruct Hin as [H | [H | H]]; try discriminate; now apply Hnl.
Qed.

(** *** Trimmed items *)

Lemma dropSpaces_prefix_fixed (r z : list ascii) :
  dropSpaces (r ++ z) = r ++ z -> dropSpaces r = r.
Proof.
  intros Hfix.
  assert (Hshort : forall m, dropSpaces m = r ++ z ->
                             List.length m < List.length (r ++ z) -> False).
  { intros m Hm Hlt. pose proof (dropSpaces_length m) as Hle.
    rewrite Hm in Hle. lia. }
  destruct r as [|c1 r1]; [reflexivity|].
  cbn [app dropSpaces] in *.
  destruct (asciiSpace c1).
  { exfalso. apply (Hshort _ Hfix). simpl. lia. }
  destruct r1 as [|c2 r2]; [reflexivity|].
  cbn [app] in *. destruct (space2 c1 c2).
  { exfalso. apply (Hshort _ Hfix). simpl. lia. }
  destruct r2 as [|c3 r3]; [reflexivity|].
  cbn [app] in *. destruct (space3 c1 c2 c3); [|reflexivity].
  exfalso. apply (Hshort _ Hfix). simpl. lia.
Qed.

Lemma dropSpaces_twice_n (n : nat) (l : list ascii) :
  List.length l <= n -> dropSpaces (dropSpaces l) = dropSpaces l.
Proof.
  revert l. induction n as [|n IH]; intros l Hl.
  - destruct l; [reflexivity | simpl in Hl; lia].
  - destruct l as [|c1 l1]; [reflexivity|]. simpl in Hl.
    cbn [dropSpaces]. destruct (asciiSpace c1) eqn:Hc1.
    { apply IH. lia. }
    destruct l1 as [|c2 l2].
    { cbn [dropSpaces]. now rewrite Hc1. }
    simpl in Hl. destruct (space2 c1 c2) eqn:Hc2.
    { apply IH. lia. }
    destruct l2 as [|c3 l3].
    { cbn [dropSpaces]. now rewrite Hc1, Hc2. }
    simpl in Hl. destruct (space3 c1 c2 c3) eqn:Hc3.
    { apply IH. lia. }
    cbn [dropSpaces]. now rewrite Hc1, Hc2, Hc3.
Qed.

Lemma dropSpacesBack_twice_n (n : nat) (l : list ascii) :
  List.length l <= n -> dropSpacesBack (dropSpacesBack l) = dropSpacesBack l.
Proof.
  revert l. induction n as [|n IH]; intros l Hl.
  - destruct l; [reflexivity | simpl in Hl; lia].
  - destruct l as [|c1 l1]; [reflexivity|]. simpl in Hl.
    cbn [dropSpacesBack]. destruct (asciiSpace c1) eqn:Hc1.
    { apply IH. lia. }
    destruct l1 as [|c2 l2].
    { cbn [dropSpacesBack]. now rewrite Hc1. }
    simpl in Hl. destruct (space2 c2 c1) eqn:Hc2.
    { apply IH. lia. }
    destruct l2 as [|c3 l3].
    { cbn [dropSpacesBack]. now rewrite Hc1, Hc2. }
    simpl in Hl. destruct (space3 c3 c2 c1) eqn:Hc3.
    { apply IH. lia. }
    cbn [dropSpacesBack]. now rewrite Hc1, Hc2, Hc3.
Qed.

(** Trimming a trimmed text changes nothing. *)
Lemma TrimSpace_twice (s : string) : TrimSpace (TrimSpace s) = TrimSpace s.
Proof.
  unfold TrimSpace. rewrite list_ascii_of_string_of_list_ascii.
  set (m := dropSpaces (list_ascii_of_string s)).
  set (n := dropSpacesBack (rev m)).
  destruct (dropSpacesBack_suffix_n _ (rev m) (le_n _)) as (q & Hq).
  fold n in Hq.
  assert (Hm : m = rev n ++ rev q).
  { rewrite <- (rev_involutive m), Hq. apply rev_app_distr. }
  assert (Hfront : dropSpaces (rev n) = rev n).
  { apply (dropSpaces_prefix_fixed (rev n) (rev q)). rewrite <- Hm.
    apply (dropSpaces_twice_n _ _ (le_n _)). }
  rewrite Hfront, rev_involutive. subst n.
  now rewrite (dropSpacesBack_twice_n _ _ (le_n _)).
Qed.

(** What the loop logs for a line is the marker followed by a text that is
    not empty and has no white space around it. *)
Lemma summaryItem_shape (l line : string) :
  summaryItem l = Some line ->
  exists x, line = ("- " ++ x)%string /\ x <> ""%string /\ TrimSpace x = x.
Proof.
  unfold summaryItem.
  set (y := TrimPrefix (TrimPrefix (TrimSpace l) "*") "-").
  destruct (TrimSpace y =? "")%string eqn:Hx; [discriminate|].
  intros H. injection H as <-. exists (TrimSpace y).
  split; [reflexivity|]. split; [now apply String.eqb_neq|].
  apply TrimSpace_twice.
Qed.

Lemma logRAGSummaries_range_spec (lines : list string) (w : World) :
  exists items,
    logRAGSummaries_range lines w = (Ret tt, w, map EvLog items) /\
    List.length items <= List.length lines /\
    Forall (fun line => exists x, line = ("- " ++ x)%string /\
                                  x <> ""%string /\ TrimSpace x = x)
           items.
Proof.
  induction lines as [|l lines (items & Hrun & Hlen & Hall)].
  - exists []. repeat split; auto.
  - cbn [logRAGSummaries_range].
    destruct (summaryItem l) as [line|] eqn:Hitem.
    + exists (line :: items). unfold bind, logPrintf, emit. rewrite Hrun.
      repeat split; [simpl; lia|].
      constructor; [now apply (summaryItem_shape l) | exact Hall].
    + exists items. repeat split; auto. simpl; lia.
Qed.

(** X18: the log of an answer never fails and leaves the world alone: it is
    the header followed by at most one line per line of the answer, each of
    them the marker followed by a text that is not empty and has no white
    space around it. *)
Theorem logRAGSummaries_lines (answer : string) (w : World) :
  exists items,
    logRAGSummaries answer w = (Ret tt, w, map EvLog (summaryHeader :: items)) /\
    List.length items
    <= S (count_occ ascii_dec (list_ascii_of_string answer) newline) /\
    Forall (fun line => exists x, line = ("- " ++ x)%string /\
                                  x <> ""%string /\ TrimSpace x = x)
           items.
Proof.
  destruct (logRAGSummaries_range_spec (SplitByte newline answer) w)
    as (items & Hrun & Hlen & Hall).
  exists items. unfold logRAGSummaries, bind, logPrintf, emit.
  rewrite Hrun. rewrite SplitByte_length in Hlen. now repeat split.
Qed.

End SummaryProperties.

(** ** White space around the question *)

Section QuestionProperties.
Context `{P : Platform} {G : Genkit P}.

(** X21: white space around the question is ignored: the flow behaves on a
    question as on the same question trimmed. *)
Theorem cyclingRAG_trims_question (input : CyclingRAGInput) (w : World) :
  cyclingRAG input w
  = cyclingRAG (mkRAGInput (TrimSpace (ragQuestion input))) w.
Proof.
  unfold cyclingRAG. cbn [ragQuestion]. now rewrite TrimSpace_twice.
Qed.

End QuestionProperties.

(** ** More concrete runs *)

Module FurtherRuns.
Import Script.

Lemma fetchRSSItems_bounded_witness :
  exists items err w',
    fetchRSSItems (P := platform) urlA 3 [ok sevenItems]
    = (Ret (items, err), w', [EvFetch urlA]) /\
    (Z.of_nat (List.length items) <= 3)%Z /\
    (err <> None -> items = []).
Proof.
  apply (@fetchRSSItems_bounded platform urlA 3%Z [ok sevenItems]). lia.
Defined.

Lemma fetchRSSItems_nil_error_iff_witness :
  @None error = None <->
  exists status body w1 feed w2,
    new_request (Platform := platform) urlA = None /\
    client_do (Platform := platform) clientTimeout
      (mkRequest "GET" urlA userAgent) [ok twoItems]
    = (inr (status, body), w1) /\
    (200 <= status < 300)%Z /\
    xml_decode (Platform := platform) body w1 = (inr feed, w2) /\
    twoItems = firstn (Z.to_nat 5) (Items (Channel feed)) /\
    [] = body_close (Platform := platform) body w2.
Proof.
  apply (@fetchRSSItems_nil_error_iff platform urlA 5%Z [ok twoItems] []
           twoItems None [EvFetch urlA]); [lia | reflexivity].
Defined.

(** An empty document and the limit -1. *)
Lemma fetchRSSItems_negative_limit_witness :
  fetchRSSItems (P := platform) urlA (-1) [ok []]
  = (Panic "slice bounds out of range", [], [EvFetch urlA]).
Proof.
  apply (@fetchRSSItems_negative_limit platform urlA (-1)%Z [ok []] [] []
           200%Z (Some (mkFeed (mkChannel []))) (mkFeed (mkChannel [])));
    [lia | reflexivity | reflexivity | lia | reflexivity].
Defined.

(** The run of the witness of the first success, read backwards. *)
Lemma fetchFirstWorkingFeed_inversion_witness :
  (@None error = None /\
   exists pre post w1,
     [urlA; badURL; urlB; urlC] = pre ++ urlB :: post /\
     exhausts (P := platform) pre 5 [ok []; ok plainItems; ok twoItems]
     = Some w1 /\
     fetchRSSItems (P := platform) urlB 5 w1
     = (Ret (plainItems, None), [ok twoItems], [EvFetch urlB]) /\
     plainItems <> [] /\
     fetched
       (snd (fetchFirstWorkingFeed (P := platform) [urlA; badURL; urlB; urlC] 5
               [ok []; ok plainItems; ok twoItems]))
     = pre ++ [urlB]) \/
  (@None error = Some (ErrNoWorkingURL [urlA; badURL; urlB; urlC]) /\
   plainItems = [] /\ urlB = ""%string /\
   exhausts (P := platform) [urlA; badURL; urlB; urlC] 5
     [ok []; ok plainItems; ok twoItems]
   = Some [ok twoItems] /\
   fetched
     (snd (fetchFirstWorkingFeed (P := platform) [urlA; badURL; urlB; urlC] 5
             [ok []; ok plainItems; ok twoItems]))
   = [urlA; badURL; urlB; urlC]).
Proof.
  apply (@fetchFirstWorkingFeed_inversion platform [urlA; badURL; urlB; urlC]
           5%Z [ok []; ok plainItems; ok twoItems] [ok twoItems] plainItems
           urlB None).
  vm_compute. reflexivity.
Defined.

Lemma fetchFirstWorkingFeed_shape_witness :
  exists items u err w' t,
    fetchFirstWorkingFeed (P := platform) [badURL; urlA] 5 [ok sevenItems]
    = (Ret (items, u, err), w', t) /\
    ((err = None /\ items <> [] /\
      (Z.of_nat (List.length items) <= 5)%Z /\ In u [badURL; urlA]) \/
     (err = Some (ErrNoWorkingURL [badURL; urlA]) /\ items = [] /\
      u = ""%string)).
Proof.
  apply (@fetchFirstWorkingFeed_shape platform [badURL; urlA] 5%Z
           [ok sevenItems]).
  lia.
Defined.

(** The same title in capitals and in small letters. *)
Lemma matchesKeyword_ascii_case_witness :
  matchesKeyword (P := platform) (item 1 "MERCATO: Z Signe")
  = matchesKeyword (P := platform) (item 2 "mercato: z signe").
Proof.
  apply (@matchesKeyword_ascii_case platform (item 1 "MERCATO: Z Signe")
           (item 2 "mercato: z signe")); reflexivity.
Defined.

Lemma filterTransferItems_matching_witness :
  filterTransferItems (P := platform) sevenItems
  = filter (matchesKeyword (P := platform)) sevenItems /\
  forall it,
    In it (filterTransferItems (P := platform) sevenItems) <->
    In it sevenItems /\ matchesKeyword (P := platform) it = true.
Proof.
  apply (@filterTransferItems_matching platform sevenItems).
  vm_compute. reflexivity.
Defined.

(** A question of two spaces and a line break. *)
Lemma cyclingRAG_blank_question_witness :
  cyclingRAG (P := Demo.platform) (G := Demo.genkit) (mkRAGInput ("  " ++ nl))
    ([ok twoItems], [inr "- A"%string])
  = cyclingRAG (P := Demo.platform) (G := Demo.genkit) (mkRAGInput defaultCyclingQuery)
      ([ok twoItems], [inr "- A"%string]).
Proof.
  apply (@cyclingRAG_blank_question Demo.platform Demo.genkit
           (mkRAGInput ("  " ++ nl)) ([ok twoItems], [inr "- A"%string])).
  vm_compute. reflexivity.
Defined.

Lemma logRAGSummaries_blank_witness :
  logRAGSummaries (P := platform) (" " ++ nl ++ "  ") []
  = (Ret tt, [], [EvLog summaryHeader]).
Proof.
  apply (@logRAGSummaries_blank platform (" " ++ nl ++ "  ")%string []).
  vm_compute. reflexivity.
Defined.

Lemma logRAGSummaries_bullets_witness :
  logRAGSummaries (P := platform)
    (String.concat nl ["- A : X -> Y"%string; "* B : Y -> Z"%string]) []
  = (Ret tt, [],
     map EvLog
       (summaryHeader
        :: map (fun x => "- " ++ x)%string
             ["A : X -> Y"%string; "B : Y -> Z"%string])).
Proof.
  apply (@logRAGSummaries_bullets platform
           ["- A : X -> Y"%string; "* B : Y -> Z"%string]
           ["A : X -> Y"%string; "B : Y -> Z"%string] []).
  repeat constructor; try (vm_compute; reflexivity); try discriminate;
    vm_compute; intuition discriminate.
Defined.

(** The flow on a world where the first feed answers and the model gives a
    list: the answer comes back with the sources of the assembler. *)
Example cyclingRAG_answers :
  fst (fst (cyclingRAG (P := Demo.platform) (G := Demo.genkit) (mkRAGInput "Qui signe ?")
              ([ok twoItems], [inr "- X : A -> Y"%string])))
  = Ret (mkRAGOutput "- X : A -> Y"
           ["https://example.org/1"%string;
            "https://dwh.lequipe.fr/api/edito/rss?path=/Cyclisme/"%string],
         None).
Proof. vm_compute. reflexivity. Qed.

(** No feed and no model: the flow fails with the error of the model, after
    the assembler has fallen back. *)
Example cyclingRAG_model_down :
  fst (fst (cyclingRAG (P := Demo.platform) (G := Demo.genkit) (mkRAGInput "") ([], [])))
  = Ret (mkRAGOutput "" [], Some (FlowGenerate "model unavailable")).
Proof. vm_compute. reflexivity. Qed.

(** One marker of each kind is removed, the asterisk first. *)
Example logRAGSummaries_markers :
  logged (snd (logRAGSummaries (P := platform)
                 ("**Nom** : A -> B" ++ nl ++ "-* y" ++ nl ++ "*- z" ++ nl ++ "-")
                 []))
  = [summaryHeader; "- *Nom** : A -> B"%string; "- * y"%string; "- z"%string].
Proof. vm_compute. reflexivity. Qed.

End FurtherRuns.
